(** * openOii frontend: the toast store and the canvas event bus

    A shallow embedding of

    - [stores/toast.store]  (the bounded queue of notifications),
    - the [toast] helpers   (the four severity constructors),
    - [types/errors]        (the [Toast] and [ToastAction] shapes),
    - [components/canvas/canvasEvents.ts] (the typed event bus),
    - [utils/configGroups.ts] (the grouping of configuration items),
    - [stores/settingsStore.ts] (the settings modal flag),
    - the [ConfigInput] component (the reveal button of a sensitive item),
    - [getStaticUrl] of the debugging script,

    together with the properties their specification states about them. *)

From Stdlib Require Import Ascii.
From stdpp Require Import gmap strings list pretty.

(** ** JavaScript objects

    The store and the constructors build their toasts with object spreads
    ([{ ...toast, id }], [{ type, duration, ...options }]), so a toast is
    modelled as what it is at run time: a finite map from property names to
    values. *)

Module JS.

(** [ToastAction.variant] of [types/errors]. *)
Inductive variant := primary | secondary.

(** [ToastAction] of [types/errors]; [onClick] is a function, held by
    reference. *)
Record ToastAction := {
  label : string;
  onClick : nat;
  variant_ : option variant
}.

(** The values a property of a toast or of its options can hold. *)
Inductive value :=
| VUndefined
| VNull
| VNumber (n : Z)
| VString (s : string)
| VActions (l : list ToastAction).

#[global] Instance variant_eq_dec : EqDecision variant.
Proof. solve_decision. Defined.
#[global] Instance ToastAction_eq_dec : EqDecision ToastAction.
Proof. solve_decision. Defined.
#[global] Instance value_eq_dec : EqDecision value.
Proof. solve_decision. Defined.

Abbreviation object := (gmap string value).

(** Property read [o.k]: a missing property reads as [undefined]. *)
Definition get (o : object) (k : string) : value :=
  default VUndefined (o !! k).

(** [a ?? b]. *)
Definition nullish (a b : value) : value :=
  match a with
  | VUndefined | VNull => b
  | _ => a
  end.

(** [{ ...dst, ...src }]: the own properties of [src] are copied over
    those already defined. *)
Definition spread (src dst : object) : object := src ∪ dst.

End JS.
Import JS.

(** ** [stores/toast.store] *)

Module ToastStore.

(** The data part of the [ToastStore] interface. *)
Record ToastStore := { toasts : list object }.

Definition MAX_TOASTS : nat := 5.

(** What one call of [addToast] reads from its environment: the integer
    [Date.now()] and the text that [Math.random()] leaves in the template
    literal. *)
Record entropy := { now : Z; random : string }.

(** [`toast-${Date.now()}-${Math.random()}`] *)
Definition toast_id (e : entropy) : string :=
  "toast-" +:+ pretty (now e) +:+ "-" +:+ random e.

(** [Array.prototype.shift], for its effect on the array. *)
Definition shift {A} (l : list A) : list A := tail l.

(** The three actions hand [set] an updater; [set] puts the [toasts] the
    updater returns in place of the old ones. *)
Definition addToast (e : entropy) (toast : object) (state : ToastStore)
  : ToastStore :=
  let id := toast_id e in
  let newToast := <["id" := VString id]> toast in
  let toasts0 := toasts state ++ [newToast] in
  let toasts1 :=
    if decide (MAX_TOASTS < length toasts0) then shift toasts0
    else toasts0 in
  {| toasts := toasts1 |}.

(** [state.toasts.filter((t) => t.id !== id)] *)
Definition removeToast (id : string) (state : ToastStore) : ToastStore :=
  {| toasts := filter (λ t, get t "id" ≠ VString id) (toasts state) |}.

Definition clearToasts (state : ToastStore) : ToastStore :=
  {| toasts := [] |}.

(** The initial state given to [create]. *)
Definition init : ToastStore := {| toasts := [] |}.

(** A run of [addToast] calls, oldest call first. *)
Definition add_all (calls : list (entropy * object)) (s : ToastStore)
  : ToastStore :=
  foldl (λ s c, addToast c.1 c.2 s) s calls.

End ToastStore.
Import ToastStore.

(** ** The [toast] helpers *)

Module toast.

(** Each constructor evaluates the literal
    [{ type: T, duration: options.duration ?? D, ...options }]
    left to right and hands it to the store's [addToast]. *)

Definition success (e : entropy) (options : object) (store : ToastStore)
  : ToastStore :=
  addToast e
    (spread options
       (<["duration" := nullish (get options "duration") (VNumber 3000)]>
          {["type" := VString "success"]}))
    store.

Definition error (e : entropy) (options : object) (store : ToastStore)
  : ToastStore :=
  addToast e
    (spread options
       (<["duration" := nullish (get options "duration") (VNumber 5000)]>
          {["type" := VString "error"]}))
    store.

Definition warning (e : entropy) (options : object) (store : ToastStore)
  : ToastStore :=
  addToast e
    (spread options
       (<["duration" := nullish (get options "duration") (VNumber 4000)]>
          {["type" := VString "warning"]}))
    store.

Definition info (e : entropy) (options : object) (store : ToastStore)
  : ToastStore :=
  addToast e
    (spread options
       (<["duration" := nullish (get options "duration") (VNumber 3000)]>
          {["type" := VString "info"]}))
    store.

End toast.

(** ** [components/canvas/canvasEvents.ts] *)

Module CanvasEventBus.

(** [keyof CanvasEvents]. *)
Inductive kind :=
| preview_image
| preview_video
| edit_character
| regenerate_character
| delete_character
| edit_shot
| regenerate_shot
| delete_shot.

#[global] Instance kind_eq_dec : EqDecision kind.
Proof. solve_decision. Defined.

Definition kind_index (k : kind) : nat :=
  match k with
  | preview_image => 0
  | preview_video => 1
  | edit_character => 2
  | regenerate_character => 3
  | delete_character => 4
  | edit_shot => 5
  | regenerate_shot => 6
  | delete_shot => 7
  end.

Definition kind_at (n : nat) : option kind :=
  match n with
  | 0 => Some preview_image
  | 1 => Some preview_video
  | 2 => Some edit_character
  | 3 => Some regenerate_character
  | 4 => Some delete_character
  | 5 => Some edit_shot
  | 6 => Some regenerate_shot
  | 7 => Some delete_shot
  | _ => None
  end.

#[global] Instance kind_countable : Countable kind.
Proof.
  apply (inj_countable kind_index kind_at). intros k. destruct k; reflexivity.
Defined.

(** The payload shapes written inline in [CanvasEvents]. *)
Record PreviewImage := { image_src : string; alt : string }.
Record PreviewVideo := { video_src : string; title : string }.
Inductive media := image | video.
Record RegenerateShot := { shot_id : Z; type : media }.

(** A listener is a function, and the [Set] tells listeners apart by
    reference. *)
Definition callback := nat.

(** How a call ends. *)
Inductive completion := Normal | Throw.

#[global] Instance completion_eq_dec : EqDecision completion.
Proof. solve_decision. Defined.

(** A [Set<EventCallback>] in insertion order. *)
Definition Set_add (c : callback) (s : list callback) : list callback :=
  if decide (c ∈ s) then s else s ++ [c].

Definition Set_delete (c : callback) (s : list callback) : list callback :=
  filter (λ x, x ≠ c) s.

(** The private field [listeners]. *)
Record CanvasEventBus := { listeners : gmap kind (list callback) }.

(** [new CanvasEventBus()] *)
Definition create : CanvasEventBus := {| listeners := ∅ |}.

(** The function [on] returns: [() => this.listeners.get(event)?.delete(callback)]. *)
Definition unsubscribe (event : kind) (cb : callback) (bus : CanvasEventBus)
  : CanvasEventBus :=
  {| listeners := alter (Set_delete cb) event (listeners bus) |}.

Definition on (event : kind) (cb : callback) (bus : CanvasEventBus)
  : CanvasEventBus * (CanvasEventBus → CanvasEventBus) :=
  let m0 := listeners bus in
  let m1 := if decide (is_Some (m0 !! event)) then m0
            else <[event := []]> m0 in
  let m2 := alter (Set_add cb) event m1 in
  ({| listeners := m2 |}, unsubscribe event cb).

Definition off (event : kind) (cb : option callback) (bus : CanvasEventBus)
  : CanvasEventBus :=
  match cb with
  | Some c => {| listeners := alter (Set_delete c) event (listeners bus) |}
  | None => {| listeners := delete event (listeners bus) |}
  end.

Definition clear (bus : CanvasEventBus) : CanvasEventBus :=
  {| listeners := ∅ |}.

(** The listener set of a kind, empty when the map has no entry. *)
Definition registered (event : kind) (bus : CanvasEventBus) : list callback :=
  default [] (listeners bus !! event).

(** The bus methods that change the registry, as data. *)
Inductive method :=
| On (event : kind) (cb : callback)
| Cancel (event : kind) (cb : callback)
| Off (event : kind) (cb : option callback)
| Clear.

Definition call (m : method) (bus : CanvasEventBus) : CanvasEventBus :=
  match m with
  | On event cb => (on event cb bus).1
  | Cancel event cb => unsubscribe event cb bus
  | Off event cb => off event cb bus
  | Clear => clear bus
  end.

Definition replay (ms : list method) (bus : CanvasEventBus) : CanvasEventBus :=
  foldl (λ b m, call m b) bus ms.

Section Emit.

(** [Character] and [Shot] come from [~/types]. *)
Context {Character Shot : Type}.

Definition CanvasEvents (k : kind) : Type :=
  match k with
  | preview_image => PreviewImage
  | preview_video => PreviewVideo
  | edit_character => Character
  | regenerate_character => Z
  | delete_character => Character
  | edit_shot => Shot
  | regenerate_shot => RegenerateShot
  | delete_shot => Shot
  end.

(** The state the listeners keep for themselves: whatever the functions
    close over. *)
Context {W : Type}.

(** What a listener does when it is called. It may read and change its
    own state, call the methods of the exported bus (it has no way to
    read the registry: [listeners] is private and the methods return
    nothing but the cancel functions), emit in its turn, with or without
    a handler around the call, and in the end return or throw. *)
Inductive code :=
| Return
| Raise
| Act (step : W → W) (next : W → code)
| Do (m : method) (next : code)
| Emit (event : kind) (data : CanvasEvents event) (returned threw : code).

(** The listeners' code, by reference, kind and payload. *)
Variable body : callback → ∀ k, CanvasEvents k → code.

(** One call made by a [forEach] of [emit]. *)
Record invocation := {
  callee : callback;
  event_of : kind;
  data_of : CanvasEvents event_of
}.

(** A [callbacks.forEach] that is under way. [Set.prototype.forEach]
    walks the entries of the live [Set]: a value deleted before its turn
    is not visited, a value added is visited at the end, also when it
    had been visited and deleted before. [pending] is what the walk has
    still to visit: the values of the [Set] behind the one being called.
    The walk is [attached] as long as its [Set] is the one the map holds
    for the kind; after [listeners.delete(event)] or [listeners.clear()]
    nothing reaches that [Set] any more. *)
Record frame := {
  frame_event : kind;
  pending : list callback;
  attached : bool
}.

(** The exported bus with the walks under way (innermost first), the
    calls made so far and the listeners' state. *)
Record machine := {
  m_bus : CanvasEventBus;
  m_frames : list frame;
  m_log : list invocation;
  world : W
}.

(** What a method called by a listener does to a walk under way. *)
Definition touch (m : method) (b : CanvasEventBus) (f : frame) : frame :=
  match m with
  | On event cb =>
      if bool_decide (attached f = true ∧ frame_event f = event
                      ∧ cb ∉ registered event b)
      then {| frame_event := frame_event f; pending := pending f ++ [cb];
              attached := attached f |}
      else f
  | Cancel event cb | Off event (Some cb) =>
      if bool_decide (attached f = true ∧ frame_event f = event)
      then {| frame_event := frame_event f;
              pending := Set_delete cb (pending f);
              attached := attached f |}
      else f
  | Off event None =>
      if bool_decide (frame_event f = event)
      then {| frame_event := frame_event f; pending := pending f;
              attached := false |}
      else f
  | Clear =>
      {| frame_event := frame_event f; pending := pending f;
         attached := false |}
  end.

(** A method called on the bus while walks are under way. *)
Definition perform (m : method) (st : machine) : machine :=
  {| m_bus := call m (m_bus st);
     m_frames := touch m (m_bus st) <$> m_frames st;
     m_log := m_log st; world := world st |}.


Definition set_world (w : W) (st : machine) : machine :=
  {| m_bus := m_bus st; m_frames := m_frames st; m_log := m_log st;
     world := w |}.

(** [const callbacks = this.listeners.get(event); if (callbacks) ...]:
    the walk starts on the [Set] of the kind, if there is one. *)
Definition enter (event : kind) (st : machine) : option machine :=
  match listeners (m_bus st) !! event with
  | Some callbacks =>
      Some {| m_bus := m_bus st;
              m_frames := {| frame_event := event; pending := callbacks;
                             attached := true |} :: m_frames st;
              m_log := m_log st; world := world st |}
  | None => None
  end.

(** The walk is over. *)
Definition leave (st : machine) : machine :=
  {| m_bus := m_bus st; m_frames := tail (m_frames st); m_log := m_log st;
     world := world st |}.

(** The walk takes the next value [c] and calls it. *)
Definition begin_call (c : callback) (event : kind) (data : CanvasEvents event)
    (rest : list callback) (f : frame) (outer : list frame) (st : machine)
  : machine :=
  {| m_bus := m_bus st;
     m_frames := {| frame_event := frame_event f; pending := rest;
                    attached := attached f |} :: outer;
     m_log := m_log st ++ [{| callee := c; event_of := event;
                              data_of := data |}];
     world := world st |}.

(** A listener's code, and the [forEach] of an [emit], run against the
    machine. Listeners may emit without end, so both take fuel; [None]
    is a run the fuel did not suffice for. *)
Fixpoint exec (fuel : nat) (c : code) (st : machine) {struct fuel}
  : option (completion * machine) :=
  match c with
  | Return => Some (Normal, st)
  | Raise => Some (Throw, st)
  | Act step next =>
      match fuel with
      | 0 => None
      | S fuel' => exec fuel' (next (world st)) (set_world (step (world st)) st)
      end
  | Do m next =>
      match fuel with
      | 0 => None
      | S fuel' => exec fuel' next (perform m st)
      end
  | Emit event data returned threw =>
      match fuel with
      | 0 => None
      | S fuel' =>
          match enter event st with
          | None => exec fuel' returned st
          | Some st0 =>
              match forEach fuel' event data st0 with
              | Some (Normal, st1) => exec fuel' returned (leave st1)
              | Some (Throw, st1) => exec fuel' threw (leave st1)
              | None => None
              end
          end
      end
  end
with forEach (fuel : nat) (event : kind) (data : CanvasEvents event)
    (st : machine) {struct fuel} : option (completion * machine) :=
  match m_frames st with
  | [] => Some (Normal, st)
  | f :: outer =>
      match pending f with
      | [] => Some (Normal, st)
      | c :: rest =>
          match fuel with
          | 0 => None
          | S fuel' =>
              match exec fuel' (body c event data)
                      (begin_call c event data rest f outer st) with
              | Some (Normal, st') => forEach fuel' event data st'
              | Some (Throw, st') => Some (Throw, st')
              | None => None
              end
          end
      end
  end.

(** What one [emit] from outside any listener did: the registry it left,
    the calls that were made, how it ended and the listeners' state. *)
Record emitted := {
  after : CanvasEventBus;
  calls : list invocation;
  outcome : completion;
  world_after : W
}.

Definition emit (fuel : nat) (event : kind) (data : CanvasEvents event)
    (bus : CanvasEventBus) (w : W) : option emitted :=
  let st := {| m_bus := bus; m_frames := []; m_log := []; world := w |} in
  match enter event st with
  | None =>
      Some {| after := bus; calls := []; outcome := Normal; world_after := w |}
  | Some st0 =>
      match forEach fuel event data st0 with
      | Some (o, st1) =>
          Some {| after := m_bus st1; calls := m_log st1; outcome := o;
                  world_after := world st1 |}
      | None => None
      end
  end.

(** The references called by an [emit], in call order. *)
Definition called (r : emitted) : list callback := callee <$> calls r.

End Emit.

#[global] Arguments CanvasEvents Character Shot k : clear implicits.
#[global] Arguments code Character Shot W : clear implicits.
#[global] Arguments invocation Character Shot : clear implicits.
#[global] Arguments machine Character Shot W : clear implicits.
#[global] Arguments emitted Character Shot W : clear implicits.

(** Every [Set] of the registry holds a reference at most once. *)
Definition wf (bus : CanvasEventBus) : Prop :=
  map_Forall (λ _ s, NoDup s) (listeners bus).

End CanvasEventBus.
Import CanvasEventBus.

(** ** Listeners that leave the bus alone *)

Section Listeners.

Context {Character Shot W : Type}.

(** Code that calls no method of the bus: it only reads and changes the
    listeners' state and then returns or throws. *)
Fixpoint quiet (c : code Character Shot W) : Prop :=
  match c with
  | Return | Raise => True
  | Act _ next => ∀ w, quiet (next w)
  | Do _ _ | Emit _ _ _ _ => False
  end.

(** How code ends and what it leaves of the listeners' state when its
    calls to the bus are left out; for [quiet] code, what it does. *)
Fixpoint alone (c : code Character Shot W) (w : W) : completion * W :=
  match c with
  | Return => (Normal, w)
  | Raise => (Throw, w)
  | Act step next => alone (next w) (step w)
  | Do _ next => alone next w
  | Emit _ _ returned _ => alone returned w
  end.


Variable body
  : callback → ∀ k, CanvasEvents Character Shot k → code Character Shot W.

(** A plain loop over a list of listeners, each run [alone], that stops
    at the first one that throws: the references called, how the loop
    ended and the state it left. *)
Fixpoint in_turn (cbs : list callback) (event : kind)
    (data : CanvasEvents Character Shot event) (w : W)
  : list callback * completion * W :=
  match cbs with
  | [] => ([], Normal, w)
  | c :: rest =>
      match alone (body c event data) w with
      | (Normal, w') =>
          let r := in_turn rest event data w' in (c :: r.1.1, r.1.2, r.2)
      | (Throw, w') => ([c], Throw, w')
      end
  end.

(** The call of [c] with the payload of an [emit]. *)
Definition invoke (event : kind) (data : CanvasEvents Character Shot event)
    (c : callback) : invocation Character Shot :=
  {| callee := c; event_of := event; data_of := data |}.

(** [emit] comes back with [r]: every run with fuel enough gives [r]. *)
Definition emits (event : kind) (data : CanvasEvents Character Shot event)
    (bus : CanvasEventBus) (w : W) (r : emitted Character Shot W) : Prop :=
  ∃ n, ∀ fuel, n ≤ fuel → emit body fuel event data bus w = Some r.

End Listeners.

(** ** Vocabulary of the specification *)

(** The four constructors of the [toast] helpers, by name. *)
Inductive severity := Success | Error | Warning | Info.

Definition construct (sv : severity)
  : entropy → object → ToastStore → ToastStore :=
  match sv with
  | Success => toast.success
  | Error => toast.error
  | Warning => toast.warning
  | Info => toast.info
  end.

(** The [ToastType] the specification expects of each constructor. *)
Definition documented_type (sv : severity) : string :=
  match sv with
  | Success => "success"
  | Error => "error"
  | Warning => "warning"
  | Info => "info"
  end.

(** The defaults the specification documents:
    success=3000, error=5000, warning=4000, info=3000. *)
Definition documented_duration (sv : severity) : Z :=
  match sv with
  | Success => 3000
  | Error => 5000
  | Warning => 4000
  | Info => 3000
  end.

(** The toast [addToast] stores for an input: [{ ...toast, id }]. *)
Definition stored (e : entropy) (t : object) : object :=
  <["id" := VString (toast_id e)]> t.

(** The store's three actions, as data, and their replay. *)
Inductive action :=
| AddToast (e : entropy) (t : object)
| RemoveToast (id : string)
| ClearToasts.

Definition act (a : action) (s : ToastStore) : ToastStore :=
  match a with
  | AddToast e t => addToast e t s
  | RemoveToast id => removeToast id s
  | ClearToasts => clearToasts s
  end.

Definition run (acts : list action) (s : ToastStore) : ToastStore :=
  foldl (λ s a, act a s) s acts.

(** What the [addToast] calls of a run read from the environment. *)
Definition draws (acts : list action) : list entropy :=
  omap (λ a, match a with AddToast e _ => Some e | _ => None end) acts.

(** The [id] properties of the queue, head first. *)
Definition ids (s : ToastStore) : list value :=
  (λ t, get t "id") <$> toasts s.

(** Inputs of the specification's scenarios: toasts titled T1 to T6, added
    at successive milliseconds, and the options of a plain call. *)
Definition titled (n : string) : object :=
  {["type" := VString "info"; "title" := VString n;
    "message" := VString ""; "duration" := VNumber 3000]}.

Definition tick (n : Z) : entropy :=
  {| now := 1700000000000 + n; random := "0.5" |}.

Definition six_calls : list (entropy * object) :=
  [(tick 1, titled "T1"); (tick 2, titled "T2"); (tick 3, titled "T3");
   (tick 4, titled "T4"); (tick 5, titled "T5"); (tick 6, titled "T6")].

Definition plain_options : object :=
  {["title" := VString "Saved"; "message" := VString "OK"]}.

(** Two calls of [addToast] that read the same clock value and the same
    random text. *)
Definition same_draw_twice : list action :=
  [AddToast (tick 1) (titled "T1"); AddToast (tick 1) (titled "T2")].

(** How often a reference occurs in a list of calls. *)
Definition times (c : callback) (l : list callback) : nat :=
  length (filter (λ x, x = c) l).

(** Inputs of the bus scenarios: entities standing for [Character] and
    [Shot], listeners that all return, and listeners of which the one
    behind reference 0 throws. *)
Record entity := { entity_id : Z; entity_name : string }.

Definition all_return
  : callback → ∀ k, CanvasEvents entity entity k → code entity entity unit :=
  λ _ _ _, Return.

Definition first_throws
  : callback → ∀ k, CanvasEvents entity entity k → code entity entity unit :=
  λ c _ _, if decide (c = 0) then Raise else Return.


(** Listeners of which the one behind reference 0 calls the cancel
    function of the one behind reference 1. *)
Definition first_cancels_second
  : callback → ∀ k, CanvasEvents entity entity k → code entity entity unit :=
  λ c k _, if decide (c = 0) then Do (Cancel k 1) Return else Return.


(** Listeners of which the one behind reference 0 removes the whole set
    of its kind and registers the one behind reference 5. *)
Definition first_replaces_set
  : callback → ∀ k, CanvasEvents entity entity k → code entity entity unit :=
  λ c k _, if decide (c = 0) then Do (Off k None) (Do (On k 5) Return)
           else Return.

(** A listener for [edit-shot] that emits [delete-shot] and lets the
    exception through, and a listener for [delete-shot] that throws. *)
Definition edit_emits_delete
  : callback → ∀ k, CanvasEvents entity entity k → code entity entity unit :=
  λ c k data,
    match k return CanvasEvents entity entity k → code entity entity unit with
    | edit_shot => λ shot, Emit delete_shot shot Return Raise
    | delete_shot => λ _, Raise
    | _ => λ _, Return
    end data.

(** A listener that throws the first time it is called and returns from
    then on; the listeners' state counts its calls. *)
Definition throws_once
  : callback → ∀ k, CanvasEvents entity entity k → code entity entity nat :=
  λ _ _ _, Act S (λ n, if decide (n = 0) then Raise else Return).

Definition entity7 : entity := {| entity_id := 7; entity_name := "A" |}.

Definition two_listeners : CanvasEventBus :=
  replay [On delete_character 0; On delete_character 1] create.

(** A bus with listeners for two kinds. *)
Definition two_kinds : CanvasEventBus :=
  replay [On edit_shot 0; On delete_shot 1] create.

(** A text without the separator of [toast_id]. *)
Fixpoint dashless (s : string) : Prop :=
  match s with
  | EmptyString => True
  | String c s' => c ≠ "-"%char ∧ dashless s'
  end.

(** ** Text operations of the remaining files *)

Module JSString.

(** [s.startsWith(p)] *)
Definition startsWith (s p : string) : bool := String.prefix p s.

(** [toLowerCase] on one character of a configuration key. The keys are
    names of environment variables; on such text the method maps the
    letters A to Z to a to z and keeps every other character. *)
Definition lower (c : ascii) : ascii :=
  let n := nat_of_ascii c in
  if decide (65 ≤ n ≤ 90) then ascii_of_nat (n + 32) else c.

Fixpoint toLowerCase (s : string) : string :=
  match s with
  | EmptyString => EmptyString
  | String c s' => String (lower c) (toLowerCase s')
  end.

End JSString.

(** ** [ConfigItem] of [~/types]

    The declaration is not part of the sources at hand; the fields are those
    the object literals of [SettingsModal.test.tsx] give a [ConfigItem]. *)

Module Types.

Record ConfigItem := {
  key : string;
  value : string;
  is_sensitive : bool;
  is_masked : bool;
  source : string
}.

#[global] Instance ConfigItem_eq_dec : EqDecision ConfigItem.
Proof. solve_decision. Defined.

End Types.

(** ** [utils/configGroups.ts] *)

Module configGroups.

Import JSString Types.

Record ConfigSection := {
  section_key : string;
  title : string;
  items : list ConfigItem
}.

(** The local [groups] record of [groupConfigs]. *)
Record Groups := {
  database : list ConfigItem;
  llm : list ConfigItem;
  image : list ConfigItem;
  video : list ConfigItem
}.

(** [groups.g.push(config)] *)
Definition push (l : list ConfigItem) (config : ConfigItem) : list ConfigItem :=
  l ++ [config].

(** The body of the [forEach] callback. *)
Definition visit (groups : Groups) (config : ConfigItem) : Groups :=
  let k := toLowerCase (key config) in
  if startsWith k "database_" || startsWith k "redis_" || startsWith k "db_"
  then {| database := push (database groups) config; llm := llm groups;
          image := image groups; video := video groups |}
  else if startsWith k "anthropic_"
  then {| database := database groups; llm := push (llm groups) config;
          image := image groups; video := video groups |}
  else if startsWith k "image_" || bool_decide (k = "enable_image_to_image")
  then {| database := database groups; llm := llm groups;
          image := push (image groups) config; video := video groups |}
  else if startsWith k "video_" || startsWith k "doubao_"
          || bool_decide (k = "enable_image_to_video")
  then {| database := database groups; llm := llm groups;
          image := image groups; video := push (video groups) config |}
  else groups.

Definition groupConfigs (configs : list ConfigItem) : list ConfigSection :=
  let groups :=
    foldl visit {| database := []; llm := []; image := []; video := [] |}
      configs in
  filter (λ section, 0 < length (items section))
    [ {| section_key := "database"; title := "数据库配置";
         items := database groups |};
      {| section_key := "llm"; title := "LLM 服务"; items := llm groups |};
      {| section_key := "image"; title := "图像生成服务";
         items := image groups |};
      {| section_key := "video"; title := "视频服务"; items := video groups |} ].

(** The four tests of the callback, one by one. *)
Definition is_database (k : string) : bool :=
  startsWith k "database_" || startsWith k "redis_" || startsWith k "db_".
Definition is_llm (k : string) : bool := startsWith k "anthropic_".
Definition is_image (k : string) : bool :=
  startsWith k "image_" || bool_decide (k = "enable_image_to_image").
Definition is_video (k : string) : bool :=
  startsWith k "video_" || startsWith k "doubao_"
  || bool_decide (k = "enable_image_to_video").

(** The configurations a test selects, in input order. *)
Definition selected (test : string → bool) (configs : list ConfigItem)
  : list ConfigItem :=
  filter (λ c, test (toLowerCase (key c)) = true) configs.

(** A configuration with its key spelled in lower case, and a section
    with the keys of its items so spelled. *)
Definition lowered (c : ConfigItem) : ConfigItem :=
  {| key := toLowerCase (key c); value := value c;
     is_sensitive := is_sensitive c; is_masked := is_masked c;
     source := source c |}.

Definition lowered_section (section : ConfigSection) : ConfigSection :=
  {| section_key := section_key section; title := title section;
     items := lowered <$> items section |}.

(** Whether some test selects a configuration. *)
Definition grouped (c : ConfigItem) : bool :=
  let k := toLowerCase (key c) in
  is_database k || is_llm k || is_image k || is_video k.

End configGroups.

(** ** The debugging script: [getStaticUrl] *)

Module staticUrl.

Import JSString.

(** [path] is a text or missing ([null], [undefined]); [!path] holds for a
    missing and for an empty one. *)
Definition getStaticUrl (path : option string) : option string :=
  match path with
  | None => None
  | Some p =>
      if bool_decide (p = "") then None
      else if startsWith p "http://" || startsWith p "https://" then Some p
      else Some ("http://localhost:18765" +:+ p)
  end.

End staticUrl.

(** ** [stores/settingsStore.ts] *)

Module settingsStore.

Record SettingsState := { isModalOpen : bool }.

(** The initial state given to [create]. *)
Definition initial : SettingsState := {| isModalOpen := false |}.

Definition openModal (state : SettingsState) : SettingsState :=
  {| isModalOpen := true |}.

Definition closeModal (state : SettingsState) : SettingsState :=
  {| isModalOpen := false |}.

Inductive request := OpenModal | CloseModal.

Definition serve (r : request) (state : SettingsState) : SettingsState :=
  match r with
  | OpenModal => openModal state
  | CloseModal => closeModal state
  end.

Definition serve_all (rs : list request) (state : SettingsState)
  : SettingsState :=
  foldl (λ s r, serve r s) state rs.

End settingsStore.

(** ** The [ConfigInput] component *)

Module ConfigInput.

Import Types.

(** The three [useState] cells, with their initial values. *)
Record State := {
  isRevealed : bool;
  revealedValue : option string;
  isRevealing : bool
}.

Definition mount : State :=
  {| isRevealed := false; revealedValue := None; isRevealing := false |}.

(** How the promise of [configApi.revealValue(item.key)] settles; the
    function itself belongs to [~/services/api]. *)
Inductive settled := Resolved (result_value : string) | Rejected.

(** What the handler lets the user see besides the state. *)
Inductive notice :=
| ConsoleError (text : string)
| Alert (text : string).

(** [revealedValue || ""] *)
Definition or_empty (v : option string) : string :=
  match v with
  | Some s => if bool_decide (s = "") then "" else s
  | None => ""
  end.

(** The text of the input: [displayValue] for a sensitive item, [value]
    for a plain one. *)
Definition displayed (item : ConfigItem) (value : string) (st : State)
  : string :=
  if is_sensitive item then
    if isRevealed st then or_empty (revealedValue st)
    else if is_masked item then value else "••••••••"
  else value.

(** One run of [handleToggleReveal] to its end, given how the promise
    settles when the handler asks for the value. *)
Definition handleToggleReveal (api : settled) (st : State)
  : State * list notice :=
  if isRevealed st then
    ({| isRevealed := false; revealedValue := None;
        isRevealing := isRevealing st |}, [])
  else
    match api with
    | Resolved v =>
        ({| isRevealed := true; revealedValue := Some v;
            isRevealing := false |}, [])
    | Rejected =>
        ({| isRevealed := isRevealed st; revealedValue := revealedValue st;
            isRevealing := false |},
         [ConsoleError "Failed to reveal value:";
          Alert "获取真实值失败，请检查网络连接"])
    end.

(** Successive clicks on the eye button, each run to its end. *)
Definition clicks (apis : list settled) (st : State) : State :=
  foldl (λ s api, (handleToggleReveal api s).1) st apis.

End ConfigInput.

(** ** Inputs of the further properties *)

(** Every member of [keyof CanvasEvents]. *)
Definition all_kinds : list kind :=
  [preview_image; preview_video; edit_character; regenerate_character;
   delete_character; edit_shot; regenerate_shot; delete_shot].

(** The kind a bus method works on; [clear] works on all of them. *)
Definition target (m : method) : option kind :=
  match m with
  | On event _ | Cancel event _ | Off event _ => Some event
  | Clear => None
  end.

(** [mockConfigData] of [SettingsModal.test.tsx]. *)
Definition mockConfigData : list Types.ConfigItem :=
  [ {| Types.key := "DATABASE_URL";
       Types.value := "postgresql://localhost:5432/test";
       Types.is_sensitive := true; Types.is_masked := false;
       Types.source := "env" |};
    {| Types.key := "REDIS_URL"; Types.value := "redis://localhost:6379/0";
       Types.is_sensitive := false; Types.is_masked := false;
       Types.source := "env" |};
    {| Types.key := "ANTHROPIC_API_KEY"; Types.value := "sk-a******key";
       Types.is_sensitive := true; Types.is_masked := true;
       Types.source := "db" |};
    {| Types.key := "IMAGE_API_KEY"; Types.value := "img-******key";
       Types.is_sensitive := true; Types.is_masked := true;
       Types.source := "db" |} ].

(** The first item of [mockConfigData]. *)
Definition database_url_item : Types.ConfigItem :=
  {| Types.key := "DATABASE_URL";
     Types.value := "postgresql://localhost:5432/test";
     Types.is_sensitive := true; Types.is_masked := false;
     Types.source := "env" |}.

(** The plain item of the [ConfigInput] tests. *)
Definition app_name_item : Types.ConfigItem :=
  {| Types.key := "APP_NAME"; Types.value := "OpenOii";
     Types.is_sensitive := false; Types.is_masked := false;
     Types.source := "env" |}.

(** The masked item of the [ConfigInput] tests. *)
Definition api_key_item : Types.ConfigItem :=
  {| Types.key := "API_KEY"; Types.value := "sk-a******key";
     Types.is_sensitive := true; Types.is_masked := true;
     Types.source := "db" |}.

(** ** The toast queue *)

Example toast_id_ex :
  toast_id {| now := 1700000000000; random := "0.25" |}
  = "toast-1700000000000-0.25".
Proof. vm_compute. reflexivity. Qed.

Lemma addToast_toasts e t s :
  toasts (addToast e t s)
  = drop (if decide (MAX_TOASTS ≤ length (toasts s)) then 1 else 0) (toasts s)
    ++ [stored e t].
Proof.
  unfold addToast, stored, shift, MAX_TOASTS. cbn [toasts].
  rewrite length_app. cbn [length].
  destruct (toasts s) as [|x q] eqn:Hq; cbn [length].
  - do 2 case_decide; try lia. reflexivity.
  - do 2 case_decide; try lia; reflexivity.
Qed.

Lemma addToast_length e t s :
  length (toasts (addToast e t s))
  = if decide (MAX_TOASTS ≤ length (toasts s)) then length (toasts s)
    else S (length (toasts s)).
Proof.
  rewrite addToast_toasts, length_app, length_drop. cbn [length].
  unfold MAX_TOASTS. case_decide; lia.
Qed.

Lemma addToast_bound e t s :
  length (toasts s) ≤ MAX_TOASTS →
  length (toasts (addToast e t s)) ≤ MAX_TOASTS.
Proof. intros H. rewrite addToast_length. case_decide; lia. Qed.

Lemma addToast_last e t s : last (toasts (addToast e t s)) = Some (stored e t).
Proof. rewrite addToast_toasts. apply last_snoc. Qed.

Lemma add_all_snoc calls c s :
  add_all (calls ++ [c]) s = addToast c.1 c.2 (add_all calls s).
Proof. unfold add_all. by rewrite foldl_app. Qed.

Lemma add_all_bound calls s :
  length (toasts s) ≤ MAX_TOASTS →
  length (toasts (add_all calls s)) ≤ MAX_TOASTS.
Proof.
  induction calls as [|c calls IH] using rev_ind; [done|].
  intros H. rewrite add_all_snoc. by apply addToast_bound, IH.
Qed.

(** From the empty queue, the queue is the last [MAX_TOASTS] toasts added,
    oldest first. *)
Lemma add_all_window calls :
  toasts (add_all calls init)
  = drop (length calls - MAX_TOASTS) ((λ c, stored c.1 c.2) <$> calls).
Proof.
  induction calls as [|c calls IH] using rev_ind; [done|].
  rewrite add_all_snoc, addToast_toasts, IH, fmap_app, length_app.
  rewrite length_drop, length_fmap. cbn [length fmap list_fmap].
  unfold MAX_TOASTS. set (l := (λ c0, stored c0.1 c0.2) <$> calls).
  assert (length l = length calls) as Hl by apply length_fmap.
  case_decide.
  - rewrite drop_drop, (drop_app_le l) by lia. do 2 f_equal. lia.
  - rewrite drop_0, (drop_app_le l) by lia. do 2 f_equal. lia.
Qed.

(** The invariant also survives removals and bulk clears. *)
Lemma run_bound acts s :
  length (toasts s) ≤ MAX_TOASTS →
  length (toasts (run acts s)) ≤ MAX_TOASTS.
Proof.
  induction acts as [|a acts IH] using rev_ind; [done|].
  intros H. unfold run. rewrite foldl_app. cbn [foldl].
  fold (run acts s). specialize (IH H). destruct a; cbn [act].
  - by apply addToast_bound.
  - cbn [removeToast toasts]. etrans; [apply length_filter|done].
  - cbn. lia.
Qed.

(** C1. Whatever sequence of [addToast] calls is made from the empty queue,
    the queue never holds more than 5 toasts (it holds the last 5 added,
    oldest first); and adding to a queue of 5 drops its head, the
    first-inserted entry, and leaves the other four followed by the new
    toast, in their former order. *)
Theorem C1_queue_bounded_fifo :
  (∀ calls, length (toasts (add_all calls init)) ≤ 5) ∧
  (∀ calls,
     toasts (add_all calls init)
     = drop (length calls - 5) ((λ c, stored c.1 c.2) <$> calls)) ∧
  (∀ e t s,
     length (toasts s) = 5 →
     ∃ oldest rest,
       toasts s = oldest :: rest ∧
       toasts (addToast e t s) = rest ++ [stored e t] ∧
       length (toasts (addToast e t s)) = 5).
Proof.
  split; [|split].
  - intros calls. apply add_all_bound. cbn. unfold MAX_TOASTS. lia.
  - apply add_all_window.
  - intros e t s Hlen.
    destruct (toasts s) as [|oldest rest] eqn:Hq; [discriminate|].
    exists oldest, rest. split; [done|].
    assert (toasts (addToast e t s) = rest ++ [stored e t]) as Hadd.
    { rewrite addToast_toasts, Hq. unfold MAX_TOASTS.
      case_decide; [done|]. cbn [length] in *. lia. }
    split; [done|]. rewrite Hadd, length_app. cbn [length] in *. lia.
Qed.

Lemma C1_queue_bounded_fifo_witness :
  length (toasts (add_all (take 5 six_calls) init)) = 5 ∧
  (λ t, get t "title") <$> toasts (add_all six_calls init)
  = [VString "T2"; VString "T3"; VString "T4"; VString "T5"; VString "T6"].
Proof.
  split; [vm_compute; reflexivity|].
  destruct (proj2 (proj2 C1_queue_bounded_fifo) (tick 6) (titled "T6")
              (add_all (take 5 six_calls) init))
    as (oldest & rest & Hq & Hadd & _); [vm_compute; reflexivity|].
  change (add_all six_calls init)
    with (addToast (tick 6) (titled "T6") (add_all (take 5 six_calls) init)).
  rewrite Hadd.
  assert (rest = tail (toasts (add_all (take 5 six_calls) init))) as ->
    by (by rewrite Hq).
  vm_compute. reflexivity.
Defined.

(** C7. Removing an id that no toast of the queue holds gives the queue
    back as it was: [filter] keeps every entry, in place. *)
Theorem C7_removeToast_absent_id (id : string) (s : ToastStore) :
  (∀ t, t ∈ toasts s → get t "id" ≠ VString id) →
  removeToast id s = s.
Proof.
  intros Habsent. destruct s as [q]. unfold removeToast. cbn [toasts] in *.
  f_equal. induction q as [|t q IH]; [done|].
  rewrite filter_cons, decide_True by (apply Habsent; left).
  f_equal. apply IH. intros t' Ht'. apply Habsent. by right.
Qed.

Lemma C7_removeToast_absent_id_witness :
  removeToast "toast-1700000000009-0.5" (addToast (tick 1) (titled "T1") init)
  = addToast (tick 1) (titled "T1") init.
Proof.
  apply C7_removeToast_absent_id. intros t Ht.
  change (toasts (addToast (tick 1) (titled "T1") init))
    with [stored (tick 1) (titled "T1")] in Ht.
  apply list_elem_of_singleton in Ht as ->. vm_compute. discriminate.
Defined.

(** ** The severity constructors *)

Lemma construct_unfold sv e options store :
  construct sv e options store
  = addToast e
      (spread options
         (<["duration" := nullish (get options "duration")
                            (VNumber (documented_duration sv))]>
            {["type" := VString (documented_type sv)]}))
      store.
Proof. by destruct sv. Qed.

(** The toast a constructor adds is the last of the queue. *)
Lemma construct_last sv e options store :
  last (toasts (construct sv e options store))
  = Some (stored e
            (spread options
               (<["duration" := nullish (get options "duration")
                                  (VNumber (documented_duration sv))]>
                  {["type" := VString (documented_type sv)]}))).
Proof. rewrite construct_unfold. apply addToast_last. Qed.

(** C3. A constructor called with options that hold [title] and [message]
    only adds a toast of its own severity with that severity's documented
    default duration; called with options that carry a duration, it adds a
    toast with the caller's duration. *)
Theorem C3_constructor_defaults
    (sv : severity) (e : entropy) (options : object) (store : ToastStore) :
  (dom options = {["title"; "message"]} →
   ∃ t, last (toasts (construct sv e options store)) = Some t ∧
        get t "type" = VString (documented_type sv) ∧
        get t "duration" = VNumber (documented_duration sv)) ∧
  (∀ d : Z, options !! "duration" = Some (VNumber d) →
   ∃ t, last (toasts (construct sv e options store)) = Some t ∧
        get t "duration" = VNumber d).
Proof.
  split.
  - intros Hdom. eexists. split; [apply construct_last|].
    assert (options !! "type" = None) as Hty.
    { apply not_elem_of_dom. rewrite Hdom, elem_of_union, !elem_of_singleton.
      by intros [|]. }
    assert (options !! "duration" = None) as Hdu.
    { apply not_elem_of_dom. rewrite Hdom, elem_of_union, !elem_of_singleton.
      by intros [|]. }
    unfold get, stored, spread.
    rewrite !lookup_insert_ne by done.
    rewrite !lookup_union_r by done.
    rewrite lookup_insert_ne, lookup_singleton_eq by done.
    rewrite lookup_insert_eq, Hdu. done.
  - intros d Hd. eexists. split; [apply construct_last|].
    unfold get, stored, spread.
    rewrite lookup_insert_ne by done.
    by erewrite lookup_union_Some_l.
Qed.

Lemma C3_constructor_defaults_witness :
  (∃ t, last (toasts (construct Error (tick 1) plain_options init)) = Some t ∧
        get t "type" = VString "error" ∧ get t "duration" = VNumber 5000) ∧
  (∃ t, last (toasts (construct Error (tick 1)
                        (<["duration" := VNumber 0]> plain_options) init))
        = Some t ∧ get t "duration" = VNumber 0).
Proof.
  split.
  - apply (proj1 (C3_constructor_defaults Error (tick 1) plain_options init)).
    vm_compute. reflexivity.
  - apply (proj2 (C3_constructor_defaults Error (tick 1)
                    (<["duration" := VNumber 0]> plain_options) init) 0%Z).
    vm_compute. reflexivity.
Defined.

(** The spread comes last in the literal, so whatever the options carry
    wins: a [duration] property that is present but [undefined] is stored
    as it is, and so is a stray [type]. *)
Example explicit_undefined_duration :
  (λ t, get t "duration")
    <$> last (toasts (toast.success (tick 1)
                        (<["duration" := VUndefined]> plain_options) init))
  = Some VUndefined.
Proof. vm_compute. reflexivity. Qed.

Example stray_type_wins :
  (λ t, get t "type")
    <$> last (toasts (toast.success (tick 1)
                        (<["type" := VString "error"]> plain_options) init))
  = Some (VString "error").
Proof. vm_compute. reflexivity. Qed.

(** The scenario of the specification: [success] then [clearToasts]. *)
Example success_then_clear :
  length (toasts (clearToasts (toast.success (tick 1) plain_options init))) = 0.
Proof. reflexivity. Qed.

(** ** Toast ids *)

Lemma string_app_cons a s t : String a s +:+ t = String a (s +:+ t).
Proof. reflexivity. Qed.

Lemma pretty_N_char_dashless d : pretty_N_char d ≠ "-"%char.
Proof. unfold pretty_N_char. by repeat case_match. Qed.

Lemma pretty_N_go_dashless x s : dashless s → dashless (pretty_N_go x s).
Proof.
  revert s. induction (N.lt_wf_0 x) as [x _ IH]; intros s Hs.
  destruct (decide (x = 0%N)) as [->|Hx]; [by rewrite pretty_N_go_0|].
  rewrite pretty_N_go_step by lia. apply IH.
  - apply N.div_lt; lia.
  - split; [apply pretty_N_char_dashless|done].
Qed.

Lemma pretty_N_go_nonempty x s : s ≠ "" → pretty_N_go x s ≠ "".
Proof.
  revert s. induction (N.lt_wf_0 x) as [x _ IH]; intros s Hs.
  destruct (decide (x = 0%N)) as [->|Hx]; [by rewrite pretty_N_go_0|].
  rewrite pretty_N_go_step by lia. apply IH; [apply N.div_lt; lia|done].
Qed.

Lemma pretty_N_dashless (x : N) : dashless (pretty x).
Proof.
  unfold pretty, pretty_N. case_decide; [by split|].
  by apply pretty_N_go_dashless.
Qed.

Lemma pretty_N_nonempty (x : N) : pretty x ≠ "".
Proof.
  unfold pretty, pretty_N. case_decide; [done|].
  rewrite pretty_N_go_step by lia. by apply pretty_N_go_nonempty.
Qed.

(** A dashless text followed by a dash is read back unambiguously. *)
Lemma dashless_split s1 s2 r1 r2 :
  dashless s1 → dashless s2 →
  s1 +:+ String "-" r1 = s2 +:+ String "-" r2 → s1 = s2 ∧ r1 = r2.
Proof.
  revert s2. induction s1 as [|a s1 IH]; intros [|b s2] H1 H2 Heq.
  - by injection Heq.
  - rewrite string_app_cons in Heq. injection Heq as <- _. by destruct H2.
  - rewrite string_app_cons in Heq. injection Heq as -> _. by destruct H1.
  - rewrite !string_app_cons in Heq. injection Heq as -> Heq.
    destruct H1 as [_ H1], H2 as [_ H2].
    destruct (IH s2 H1 H2 Heq) as [-> ->]. done.
Qed.

(** The decimal text of a non-negative timestamp starts with a digit. *)
Lemma pretty_N_head (x : N) : ∃ c s, pretty x = String c s ∧ c ≠ "-"%char.
Proof.
  pose proof (pretty_N_dashless x) as Hd. pose proof (pretty_N_nonempty x) as Hn.
  destruct (pretty x) as [|c s]; [done|]. exists c, s. by destruct Hd.
Qed.

Lemma timestamp_split (z1 z2 : Z) r1 r2 :
  pretty z1 +:+ String "-" r1 = pretty z2 +:+ String "-" r2 →
  z1 = z2 ∧ r1 = r2.
Proof.
  assert (∀ z : Z, (0 ≤ z)%Z → pretty z = pretty (Z.to_N z)) as Hnn.
  { by intros [|p|p] ?. }
  assert (∀ p, pretty (Z.neg p) = String "-" (pretty (N.pos p))) as Hneg by done.
  intros Heq.
  destruct (decide (0 ≤ z1)%Z) as [H1|H1], (decide (0 ≤ z2)%Z) as [H2|H2].
  - rewrite (Hnn z1), (Hnn z2) in Heq by done.
    apply dashless_split in Heq as [Hp ->]; [|apply pretty_N_dashless..].
    split; [|done]. apply (inj pretty) in Hp. lia.
  - destruct z2 as [|p2|p2]; try lia.
    rewrite (Hnn z1), Hneg in Heq by done.
    destruct (pretty_N_head (Z.to_N z1)) as (c & s & Hcs & Hc).
    rewrite Hcs, !string_app_cons in Heq. by injection Heq as -> _.
  - destruct z1 as [|p1|p1]; try lia.
    rewrite (Hnn z2), Hneg in Heq by done.
    destruct (pretty_N_head (Z.to_N z2)) as (c & s & Hcs & Hc).
    rewrite Hcs, !string_app_cons in Heq. by injection Heq as <- _.
  - destruct z1 as [|p1|p1], z2 as [|p2|p2]; try lia.
    rewrite !Hneg, !string_app_cons in Heq. injection Heq as Heq.
    apply dashless_split in Heq as [Hp ->]; [|apply pretty_N_dashless..].
    split; [|done]. apply (inj pretty) in Hp. by injection Hp as ->.
Qed.

(** Two ids are the same text exactly when both components are. *)
Lemma toast_id_inj e1 e2 : toast_id e1 = toast_id e2 → e1 = e2.
Proof.
  destruct e1 as [n1 r1], e2 as [n2 r2]. unfold toast_id. cbn [now random].
  intros Heq. apply (inj (String.app "toast-")) in Heq.
  apply timestamp_split in Heq as [-> ->]. done.
Qed.

Lemma ids_addToast e t s :
  ids (addToast e t s)
  = drop (if decide (MAX_TOASTS ≤ length (toasts s)) then 1 else 0) (ids s)
    ++ [VString (toast_id e)].
Proof.
  unfold ids. rewrite addToast_toasts, fmap_app, fmap_drop. cbn [fmap list_fmap].
  do 2 f_equal. unfold get, stored. by rewrite lookup_insert_eq.
Qed.

Lemma ids_removeToast id s : ids (removeToast id s) `sublist_of` ids s.
Proof. unfold ids. cbn [removeToast toasts]. apply fmap_sublist, sublist_filter. Qed.

(** Every id in a queue reached from the empty one was made from one of the
    draws of the run, and no two entries share one when no two draws are
    equal. *)
Lemma run_ids_from_draws acts :
  NoDup (draws acts) →
  NoDup (ids (run acts init)) ∧
  ∀ v, v ∈ ids (run acts init) → ∃ e, e ∈ draws acts ∧ v = VString (toast_id e).
Proof.
  induction acts as [|a acts IH] using rev_ind.
  - intros _. split; [constructor|]. intros v Hv. by apply elem_of_nil in Hv.
  - unfold draws, run. rewrite omap_app, foldl_app. cbn [foldl].
    fold (draws acts) (run acts init). intros [Hnd [Hdisj Hnda]]%NoDup_app.
    destruct (IH Hnd) as [IHnd IHfrom]. clear IH.
    destruct a as [e t|id|]; cbn [act omap list_omap] in *.
    + rewrite ids_addToast. split.
      * apply NoDup_app. split; [|split].
        -- exact (sublist_NoDup _ _ IHnd (sublist_drop _ _)).
        -- intros v Hv ->%list_elem_of_singleton.
           eapply elem_of_sublist in Hv; [|apply sublist_drop].
           destruct (IHfrom _ Hv) as (e' & He' & Heq).
           assert (e' = e) as -> by (apply toast_id_inj; congruence).
           apply (Hdisj e He'). by left.
        -- apply NoDup_singleton.
      * intros v [Hv | ->%list_elem_of_singleton]%elem_of_app.
        -- eapply elem_of_sublist in Hv; [|apply sublist_drop].
           destruct (IHfrom _ Hv) as (e' & He' & ->). exists e'.
           split; [|done]. apply elem_of_app. by left.
        -- exists e. split; [|done]. apply elem_of_app. right. by left.
    + rewrite app_nil_r. split.
      * exact (sublist_NoDup _ _ IHnd (ids_removeToast _ _)).
      * intros v Hv. eapply elem_of_sublist in Hv; [|apply ids_removeToast].
        eauto.
    + rewrite app_nil_r. split; [constructor|].
      intros v Hv. by apply elem_of_nil in Hv.
Qed.

(** C9, as the code has it. An id is the text [toast-<clock>-<random>]; two
    ids are equal exactly when both the clock value and the random text
    are. So the toasts of a queue reached from the empty one have pairwise
    distinct ids whenever no two [addToast] calls of the run read the same
    pair of clock value and random text. *)
Theorem C9_ids_distinct_for_distinct_draws :
  (∀ e1 e2, toast_id e1 = toast_id e2 ↔ e1 = e2) ∧
  (∀ acts, NoDup (draws acts) → NoDup (ids (run acts init))).
Proof.
  split.
  - intros e1 e2. split; [apply toast_id_inj|by intros ->].
  - intros acts Hnd. by apply run_ids_from_draws.
Qed.

Lemma C9_ids_distinct_for_distinct_draws_witness :
  NoDup (ids (run [AddToast (tick 1) (titled "T1");
                   AddToast (tick 2) (titled "T2")] init)).
Proof.
  apply (proj2 C9_ids_distinct_for_distinct_draws).
  cbn. apply NoDup_cons. split; [|apply NoDup_singleton].
  intros [=]%list_elem_of_singleton.
Defined.

(** C9, as stated, fails: nothing keeps two calls from reading the same
    millisecond and the same random number, and then the queue holds two
    toasts with one id. *)
Lemma C9_id_collision :
  ids (run same_draw_twice init)
  = [VString "toast-1700000000001-0.5"; VString "toast-1700000000001-0.5"] ∧
  ¬ (∀ acts, NoDup (ids (run acts init))).
Proof.
  assert (ids (run same_draw_twice init)
          = [VString "toast-1700000000001-0.5";
             VString "toast-1700000000001-0.5"]) as Hids
    by (vm_compute; reflexivity).
  split; [done|].
  intros Hall. specialize (Hall same_draw_twice). rewrite Hids in Hall.
  apply NoDup_cons in Hall as [Hin _]. apply Hin. by left.
Qed.

(** Every id in a queue reached from the empty one was made from a draw
    of the run. *)
Lemma run_ids_origin acts v :
  v ∈ ids (run acts init) → ∃ e, e ∈ draws acts ∧ v = VString (toast_id e).
Proof.
  revert v. induction acts as [|a acts IH] using rev_ind; intros v.
  - intros Hv. by apply elem_of_nil in Hv.
  - unfold draws, run. rewrite omap_app, foldl_app. cbn [foldl].
    fold (draws acts) (run acts init).
    destruct a as [e t|id|]; cbn [act omap list_omap].
    + rewrite ids_addToast.
      intros [Hv | ->%list_elem_of_singleton]%elem_of_app.
      * eapply elem_of_sublist in Hv; [|apply sublist_drop].
        destruct (IH _ Hv) as (e' & He' & ->). exists e'.
        split; [|done]. apply elem_of_app. by left.
      * exists e. split; [|done]. apply elem_of_app. right. by left.
    + rewrite app_nil_r. intros Hv.
      eapply elem_of_sublist in Hv; [|apply ids_removeToast]. eauto.
    + intros Hv. by apply elem_of_nil in Hv.
Qed.

(** C10, as the code has it. [addToast] puts the new toast last; the new
    toast is the input with an [id] property set and every other property
    as the caller gave it; the entries before it are those of the old
    queue, less its head when the old queue was full, in their old order
    and unchanged. The id is the text made from what this call reads of
    the clock and the random source: in a queue reached from the empty
    one it is new whenever no earlier call read the same pair. *)
Theorem C10_addToast_frame (e : entropy) (t : object) (s : ToastStore) :
  last (toasts (addToast e t s)) = Some (stored e t) ∧
  stored e t !! "id" = Some (VString (toast_id e)) ∧
  (∀ k, k ≠ "id" → stored e t !! k = t !! k) ∧
  Forall (λ k, get (stored e t) k = get t k)
    ["type"; "title"; "message"; "duration"; "actions"; "details"] ∧
  toasts (addToast e t s)
  = drop (if decide (5 ≤ length (toasts s)) then 1 else 0) (toasts s)
    ++ [stored e t] ∧
  (∀ acts, s = run acts init → e ∉ draws acts →
           get (stored e t) "id" ∉ ids s).
Proof.
  split; [apply addToast_last|].
  split; [apply lookup_insert_eq|].
  split; [intros k Hk; by apply lookup_insert_ne|].
  split; [|split; [apply addToast_toasts|]].
  - repeat constructor; unfold get, stored; by rewrite lookup_insert_ne.
  - intros acts -> Hnew Hin.
    destruct (run_ids_origin acts _ Hin) as (e' & He' & Heq).
    unfold get, stored in Heq. rewrite lookup_insert_eq in Heq.
    cbv [default from_option id] in Heq.
    assert (e = e') as -> by (apply toast_id_inj; congruence).
    done.
Qed.

Lemma C10_addToast_frame_witness :
  stored (tick 2) (titled "T2") !! "title" = titled "T2" !! "title" ∧
  get (stored (tick 2) (titled "T2")) "id"
  ∉ ids (run [AddToast (tick 1) (titled "T1")] init).
Proof.
  destruct (C10_addToast_frame (tick 2) (titled "T2")
              (run [AddToast (tick 1) (titled "T1")] init))
    as (_ & _ & Hkeep & _ & _ & Hnew).
  split; [by apply Hkeep|]. apply (Hnew [AddToast (tick 1) (titled "T1")]).
  - reflexivity.
  - cbn. by intros [=]%list_elem_of_singleton.
Defined.

(** C10, as stated, fails where C9 does: a call that reads the clock
    value and the random text an earlier call read stores an id that is
    already in the queue. *)
Lemma C10_id_already_queued :
  get (stored (tick 1) (titled "T2")) "id"
  ∈ ids (run [AddToast (tick 1) (titled "T1")] init) ∧
  ¬ (∀ acts e t, get (stored e t) "id" ∉ ids (run acts init)).
Proof.
  assert (get (stored (tick 1) (titled "T2")) "id"
          ∈ ids (run [AddToast (tick 1) (titled "T1")] init)) as Hin.
  { vm_compute. left. }
  split; [done|]. intros Hall. by eapply Hall.
Qed.

(** ** The listener sets *)


Lemma NoDup_Set_add c s : NoDup s → NoDup (Set_add c s).
Proof.
  intros Hs. unfold Set_add. case_decide; [done|].
  apply NoDup_app. split; [done|]. split; [|apply NoDup_singleton].
  by intros x Hx ->%list_elem_of_singleton.
Qed.


Lemma elem_of_Set_delete x c s : x ∈ Set_delete c s ↔ x ≠ c ∧ x ∈ s.
Proof. unfold Set_delete. by rewrite list_elem_of_filter. Qed.

Lemma NoDup_Set_delete c s : NoDup s → NoDup (Set_delete c s).
Proof. apply NoDup_filter. Qed.

Lemma Set_delete_absent c s : c ∉ s → Set_delete c s = s.
Proof.
  intros Hc. unfold Set_delete. induction s as [|x s IH]; [done|].
  apply not_elem_of_cons in Hc as [Hx Hc].
  rewrite filter_cons, decide_True by done. by rewrite IH.
Qed.

Lemma Set_delete_again c s : Set_delete c (Set_delete c s) = Set_delete c s.
Proof. apply Set_delete_absent. rewrite elem_of_Set_delete. tauto. Qed.

Lemma Set_delete_add c s : c ∉ s → Set_delete c (Set_add c s) = s.
Proof.
  intros Hc. unfold Set_add. rewrite decide_False by done.
  unfold Set_delete. rewrite filter_app, filter_cons, decide_False by tauto.
  rewrite filter_nil, app_nil_r. by apply Set_delete_absent.
Qed.

Lemma times_absent c l : c ∉ l → times c l = 0.
Proof.
  unfold times. induction l as [|x l IH]; [done|].
  intros [Hx Hc]%not_elem_of_cons.
  rewrite filter_cons, decide_False by done. by apply IH.
Qed.

Lemma times_NoDup c l : NoDup l → times c l ≤ 1.
Proof.
  induction 1 as [|x l Hx _ IH]; [cbn; lia|].
  unfold times in *. rewrite filter_cons. case_decide as Hc; [|done].
  subst x. cbn [length]. fold (times c l). rewrite times_absent by done. lia.
Qed.


(** ** The registry *)

Lemma bus_eq b1 b2 : listeners b1 = listeners b2 → b1 = b2.
Proof. destruct b1, b2. cbn. by intros ->. Qed.

Lemma on_listeners event cb bus :
  listeners (on event cb bus).1
  = <[event := Set_add cb (registered event bus)]> (listeners bus).
Proof.
  unfold on, registered. cbn [fst listeners]. apply map_eq. intros k.
  destruct (listeners bus !! event) as [s|] eqn:Hs.
  - rewrite decide_True by eauto. cbn [default].
    destruct (decide (event = k)) as [<-|Hk].
    + by rewrite lookup_alter_eq, lookup_insert_eq, Hs.
    + by rewrite lookup_alter_ne, lookup_insert_ne.
  - rewrite decide_False by (by intros [??]). cbn [default].
    destruct (decide (event = k)) as [<-|Hk].
    + by rewrite lookup_alter_eq, !lookup_insert_eq.
    + by rewrite lookup_alter_ne, !lookup_insert_ne.
Qed.

Lemma on_registered event cb bus :
  registered event (on event cb bus).1 = Set_add cb (registered event bus).
Proof. unfold registered at 1. by rewrite on_listeners, lookup_insert_eq. Qed.

Lemma on_registered_ne event event' cb bus :
  event ≠ event' →
  listeners (on event cb bus).1 !! event' = listeners bus !! event'.
Proof. intros. by rewrite on_listeners, lookup_insert_ne. Qed.

Lemma unsubscribe_registered event cb bus :
  registered event (unsubscribe event cb bus)
  = Set_delete cb (registered event bus).
Proof.
  unfold registered, unsubscribe. cbn [listeners]. rewrite lookup_alter_eq.
  by destruct (listeners bus !! event).
Qed.

Lemma unsubscribe_again event cb bus :
  unsubscribe event cb (unsubscribe event cb bus) = unsubscribe event cb bus.
Proof.
  unfold unsubscribe. cbn [listeners]. f_equal. apply map_eq. intros k.
  destruct (decide (event = k)) as [<-|Hk].
  - rewrite !lookup_alter_eq. destruct (listeners bus !! event); [|done].
    cbn. by rewrite Set_delete_again.
  - by rewrite !lookup_alter_ne.
Qed.

Lemma wf_create : wf create.
Proof. apply map_Forall_empty. Qed.

Lemma wf_registered event bus : wf bus → NoDup (registered event bus).
Proof.
  intros Hwf. unfold registered.
  destruct (listeners bus !! event) as [s|] eqn:Hs; [|constructor].
  exact (Hwf _ _ Hs).
Qed.

Lemma wf_unsubscribe event cb bus : wf bus → wf (unsubscribe event cb bus).
Proof.
  intros Hwf k s. unfold unsubscribe. cbn [listeners].
  destruct (decide (event = k)) as [<-|Hk].
  - rewrite lookup_alter_eq. destruct (listeners bus !! event) as [s0|] eqn:Hs0;
      [|done].
    intros [= <-]. apply NoDup_Set_delete. exact (Hwf _ _ Hs0).
  - rewrite lookup_alter_ne by done. apply Hwf.
Qed.

Lemma wf_call m bus : wf bus → wf (call m bus).
Proof.
  intros Hwf. destruct m as [event cb|event cb|event [cb|]|]; cbn [call].
  - intros k s. rewrite on_listeners.
    destruct (decide (event = k)) as [<-|Hk].
    + rewrite lookup_insert_eq. intros [= <-].
      by apply NoDup_Set_add, wf_registered.
    + rewrite lookup_insert_ne by done. apply Hwf.
  - by apply wf_unsubscribe.
  - by apply (wf_unsubscribe event cb).
  - intros k s. cbn [off listeners]. intros Hk%lookup_delete_Some.
    destruct Hk as [_ Hk]. exact (Hwf _ _ Hk).
  - apply map_Forall_empty.
Qed.

(** Every registry reached from a fresh bus is well formed. *)
Lemma wf_replay ms bus : wf bus → wf (replay ms bus).
Proof.
  revert bus. induction ms as [|m ms IH]; intros bus Hwf; [done|].
  cbn. by apply IH, wf_call.
Qed.

(** ** Dispatch *)

Section Dispatch.

Context {Character Shot W : Type}.
Variable body
  : callback → ∀ k, CanvasEvents Character Shot k → code Character Shot W.

Lemma exec_0 c st :
  exec body 0 c st
  = match c with
    | Return => Some (Normal, st)
    | Raise => Some (Throw, st)
    | _ => None
    end.
Proof. by destruct c. Qed.

Lemma exec_S fuel c st :
  exec body (S fuel) c st
  = match c with
    | Return => Some (Normal, st)
    | Raise => Some (Throw, st)
    | Act step next =>
        exec body fuel (next (world st)) (set_world (step (world st)) st)
    | Do m next => exec body fuel next (perform m st)
    | Emit event data returned threw =>
        match enter event st with
        | None => exec body fuel returned st
        | Some st0 =>
            match forEach body fuel event data st0 with
            | Some (Normal, st1) => exec body fuel returned (leave st1)
            | Some (Throw, st1) => exec body fuel threw (leave st1)
            | None => None
            end
        end
    end.
Proof. by destruct c. Qed.

Lemma forEach_0 event data st :
  forEach body 0 event data st
  = match m_frames st with
    | [] => Some (Normal, st)
    | f :: outer =>
        match pending f with
        | [] => Some (Normal, st)
        | _ :: _ => None
        end
    end.
Proof. reflexivity. Qed.

Lemma forEach_S fuel event data st :
  forEach body (S fuel) event data st
  = match m_frames st with
    | [] => Some (Normal, st)
    | f :: outer =>
        match pending f with
        | [] => Some (Normal, st)
        | c :: rest =>
            match exec body fuel (body c event data)
                    (begin_call c event data rest f outer st) with
            | Some (Normal, st') => forEach body fuel event data st'
            | Some (Throw, st') => Some (Throw, st')
            | None => None
            end
        end
    end.
Proof. reflexivity. Qed.

Lemma exec_forEach_mono fuel :
  (∀ c st r, exec body fuel c st = Some r →
     ∀ fuel', fuel ≤ fuel' → exec body fuel' c st = Some r) ∧
  (∀ event data st r, forEach body fuel event data st = Some r →
     ∀ fuel', fuel ≤ fuel' → forEach body fuel' event data st = Some r).
Proof.
  induction fuel as [|fuel [IHe IHf]].
  - split.
    + intros c st r H fuel' _. rewrite exec_0 in H.
      destruct fuel'; [rewrite exec_0|rewrite exec_S]; by destruct c.
    + intros event data st r H fuel' _. rewrite forEach_0 in H.
      destruct fuel'; [rewrite forEach_0|rewrite forEach_S];
        destruct (m_frames st) as [|f outer]; try done;
        by destruct (pending f).
  - split.
    + intros c st r H [|fuel'] Hle; [lia|]. apply le_S_n in Hle.
      rewrite exec_S in H. rewrite exec_S.
      destruct c as [| |step next|m next|event data returned threw];
        try done.
      * by apply IHe.
      * by apply IHe.
      * destruct (enter event st) as [st0|]; [|by apply IHe].
        destruct (forEach body fuel event data st0) as [[[] st1]|] eqn:Hf;
          [| |done]; rewrite (IHf _ _ _ _ Hf fuel' Hle); by apply IHe.
    + intros event data st r H [|fuel'] Hle; [lia|]. apply le_S_n in Hle.
      rewrite forEach_S in H. rewrite forEach_S.
      destruct (m_frames st) as [|f outer]; [done|].
      destruct (pending f) as [|c rest]; [done|].
      destruct (exec body fuel _ _) as [[[] st']|] eqn:He; [| |done];
        rewrite (IHe _ _ _ He fuel' Hle); [by apply IHf|done].
Qed.

Lemma exec_mono fuel fuel' c st r :
  exec body fuel c st = Some r → fuel ≤ fuel' → exec body fuel' c st = Some r.
Proof. intros H Hle. by eapply (proj1 (exec_forEach_mono fuel)). Qed.

Lemma forEach_mono fuel fuel' event data st r :
  forEach body fuel event data st = Some r → fuel ≤ fuel' →
  forEach body fuel' event data st = Some r.
Proof. intros H Hle. by eapply (proj2 (exec_forEach_mono fuel)). Qed.

Lemma set_world_same (st : machine Character Shot W) : set_world (world st) st = st.
Proof. by destruct st. Qed.

Lemma exec_quiet c :
  quiet c → ∀ st, ∃ n, ∀ fuel, n ≤ fuel →
    exec body fuel c st
    = Some ((alone c (world st)).1, set_world (alone c (world st)).2 st).
Proof.
  induction c as [| |step next IH|m next IH|event data r IHr t IHt];
    cbn [quiet]; intros Hq st; try done.
  - exists 0. intros fuel _.
    destruct fuel; [rewrite exec_0|rewrite exec_S]; cbn;
      by rewrite set_world_same.
  - exists 0. intros fuel _.
    destruct fuel; [rewrite exec_0|rewrite exec_S]; cbn;
      by rewrite set_world_same.
  - destruct (IH (world st) (Hq _) (set_world (step (world st)) st)) as [n Hn].
    exists (S n). intros [|fuel] Hle; [lia|].
    rewrite exec_S, Hn by lia. done.
Qed.


Lemma forEach_quiet event data (l : list callback) :
  Forall (λ c, quiet (body c event data)) l →
  ∀ b ev att outer lg w,
  ∃ n, ∀ fuel, n ≤ fuel →
    forEach body fuel event data
      {| m_bus := b;
         m_frames := {| frame_event := ev; pending := l; attached := att |}
                     :: outer;
         m_log := lg; world := w |}
    = Some ((in_turn body l event data w).1.2,
            {| m_bus := b;
               m_frames :=
                 {| frame_event := ev;
                    pending := drop (length (in_turn body l event data w).1.1) l;
                    attached := att |} :: outer;
               m_log := lg ++ (invoke event data
                               <$> (in_turn body l event data w).1.1);
               world := (in_turn body l event data w).2 |}).
Proof.
  induction 1 as [|c rest Hc _ IH]; intros b ev att outer lg w.
  - exists 0. intros fuel _. cbn [in_turn fst snd length drop fmap list_fmap].
    rewrite app_nil_r. by destruct fuel.
  - destruct (exec_quiet _ Hc
                (begin_call c event data rest
                   {| frame_event := ev; pending := c :: rest; attached := att |}
                   outer
                   {| m_bus := b;
                      m_frames := {| frame_event := ev; pending := c :: rest;
                                     attached := att |} :: outer;
                      m_log := lg; world := w |})) as [n1 Hn1].
    cbn [world begin_call] in Hn1. cbn [in_turn].
    destruct (alone (body c event data) w) as [[] w'] eqn:Hal;
      cbn [fst snd] in Hn1.
    + destruct (IH b ev att outer (lg ++ [invoke event data c]) w')
        as [n2 Hn2].
      exists (S (n1 `max` n2)). intros [|fuel] Hle; [lia|].
      rewrite forEach_S. cbn [m_frames pending].
      rewrite Hn1 by lia. unfold set_world, begin_call.
      cbn [m_bus m_frames m_log world frame_event attached].
      fold (invoke event data c). rewrite Hn2 by lia.
      cbn [fst snd length drop fmap list_fmap]. by rewrite <-app_assoc.
    + exists (S n1). intros [|fuel] Hle; [lia|].
      rewrite forEach_S. cbn [m_frames pending].
      rewrite Hn1 by lia. unfold set_world, begin_call.
      cbn [m_bus m_frames m_log world frame_event attached fst snd length drop
             fmap list_fmap].
      by rewrite drop_0.
Qed.

Lemma emit_quiet (event : kind) (data : CanvasEvents Character Shot event)
    (bus : CanvasEventBus) (w : W) :
  (∀ c, c ∈ registered event bus → quiet (body c event data)) →
  ∃ n, ∀ fuel, n ≤ fuel →
    emit body fuel event data bus w
    = Some {| after := bus;
              calls := invoke event data
                       <$> (in_turn body (registered event bus) event data w).1.1;
              outcome := (in_turn body (registered event bus) event data w).1.2;
              world_after := (in_turn body (registered event bus) event data w).2 |}.
Proof.
  intros Hq. unfold emit, enter, registered in *. cbn [m_bus m_frames m_log world].
  destruct (listeners bus !! event) as [l|]; cbn [default] in *.
  - destruct (forEach_quiet event data l (proj2 (Forall_forall _ _) Hq)
                bus event true [] [] w) as [n Hn].
    exists n. intros fuel Hle. by rewrite Hn.
  - by exists 0.
Qed.

Lemma in_turn_shape event data (l : list callback) (w : W) :
  ((in_turn body l event data w).1.2 = Normal ∧ (in_turn body l event data w).1.1 = l) ∨
  ((in_turn body l event data w).1.2 = Throw ∧
   ∃ pre c post w', l = pre ++ c :: post
                    ∧ (in_turn body l event data w).1.1 = pre ++ [c]
                    ∧ (alone (body c event data) w').1 = Throw).
Proof.
  revert w. induction l as [|c l IH]; intros w; [by left|].
  cbn [in_turn]. destruct (alone (body c event data) w) as [[] w'] eqn:Hal.
  - cbn [fst snd].
    destruct (IH w') as [[-> ->]|(-> & pre & c' & post & w'' & -> & -> & Hc')].
    + by left.
    + right. split; [done|]. by exists (c :: pre), c', post, w''.
  - right. split; [done|]. exists [], c, l, w. by rewrite Hal.
Qed.

Lemma in_turn_prefix event data (l : list callback) (w : W) :
  (in_turn body l event data w).1.1 `prefix_of` l.
Proof.
  destruct (in_turn_shape event data l w)
    as [[_ ->]|(_ & pre & c & post & _ & -> & -> & _)]; [done|].
  exists post. by rewrite <-app_assoc.
Qed.




Lemma callee_invoke event (data : CanvasEvents Character Shot event)
    (l : list callback) :
  callee <$> (invoke event data <$> l) = l.
Proof. induction l; [done|]. cbn. by f_equal. Qed.

(** With no listener for the kind, [emit] needs no fuel. *)
Lemma emit_nobody fuel (event : kind)
    (data : CanvasEvents Character Shot event) (bus : CanvasEventBus) (w : W) :
  registered event bus = [] →
  emit body fuel event data bus w
  = Some {| after := bus; calls := []; outcome := Normal; world_after := w |}.
Proof.
  unfold registered, emit, enter. cbn [m_bus m_frames m_log world].
  destruct (listeners bus !! event) as [l|]; [|done].
  cbn. intros ->. by destruct fuel.
Qed.

(** What [emit] does when the listeners of the kind leave the bus
    alone. *)
Lemma emits_quiet (event : kind) (data : CanvasEvents Character Shot event)
    (bus : CanvasEventBus) (w : W) :
  (∀ c, c ∈ registered event bus → quiet (body c event data)) →
  ∃ r, emits body event data bus w r ∧
       after r = bus ∧
       calls r = invoke event data <$> called r ∧
       (called r, outcome r, world_after r)
       = in_turn body (registered event bus) event data w.
Proof.
  intros Hq. destruct (emit_quiet event data bus w Hq) as [n Hn].
  eexists. split; [by exists n|]. unfold called.
  cbn [after calls outcome world_after]. rewrite callee_invoke.
  split; [done|]. split; [done|].
  by destruct (in_turn body (registered event bus) event data w) as [[??]?].
Qed.

Lemma emits_unique (event : kind) (data : CanvasEvents Character Shot event)
    (bus : CanvasEventBus) (w : W) r1 r2 :
  emits body event data bus w r1 → emits body event data bus w r2 → r1 = r2.
Proof.
  intros [n1 H1] [n2 H2].
  specialize (H1 (n1 `max` n2)). specialize (H2 (n1 `max` n2)).
  rewrite H1 in H2 by lia. by injection H2; [|lia].
Qed.

(** ** Listeners that call the bus *)







End Dispatch.

(** ** Properties of the event bus *)

(** C5. The function [on] returns can be called any number of times: the
    first call takes the registered function, and only it, out of the set
    of its kind, the others keeping their order, and a second call finds
    nothing left to remove. *)
Theorem C5_cancel_idempotent (event : kind) (cb : callback)
    (bus later : CanvasEventBus) :
  let cancel := (on event cb bus).2 in
  cancel (cancel later) = cancel later ∧
  registered event (cancel later) = Set_delete cb (registered event later) ∧
  (cb ∉ registered event (cancel later)) ∧
  (∀ c, c ≠ cb →
        (c ∈ registered event (cancel later) ↔ c ∈ registered event later)) ∧
  (∀ event', event' ≠ event →
             listeners (cancel later) !! event' = listeners later !! event') ∧
  (cb ∉ registered event bus →
   registered event (cancel (on event cb bus).1) = registered event bus).
Proof.
  cbn [on snd]. split; [apply unsubscribe_again|].
  split; [apply unsubscribe_registered|].
  split; [rewrite unsubscribe_registered, elem_of_Set_delete; tauto|].
  split; [|split].
  - intros c Hc. rewrite unsubscribe_registered, elem_of_Set_delete. tauto.
  - intros event' Hne. unfold unsubscribe. cbn [listeners].
    by rewrite lookup_alter_ne.
  - intros Hfresh. rewrite unsubscribe_registered, on_registered.
    by apply Set_delete_add.
Qed.

Section Bus.

Context {Character Shot W : Type}.
Variable body
  : callback → ∀ k, CanvasEvents Character Shot k → code Character Shot W.



(** C6. [off(kind)] drops the whole entry of the kind and nothing else, so
    an [emit] for the kind calls nothing until someone registers again,
    and then calls the newcomer only, if the newcomer leaves the bus
    alone; [off(kind, callback)] takes that one function out of the set of
    the kind and leaves the rest in place. *)
Theorem C6_off (event : kind) (bus : CanvasEventBus) :
  listeners (off event None bus) !! event = None ∧
  (∀ event', event' ≠ event →
     listeners (off event None bus) !! event' = listeners bus !! event') ∧
  (∀ fuel (data : CanvasEvents Character Shot event) (w : W),
     emit body fuel event data (off event None bus) w
     = Some {| after := off event None bus; calls := []; outcome := Normal;
               world_after := w |}) ∧
  (∀ (cb' : callback) (data : CanvasEvents Character Shot event) (w : W),
     quiet (body cb' event data) →
     ∃ r, emits body event data (on event cb' (off event None bus)).1 w r
          ∧ called r = [cb']) ∧
  (∀ cb : callback,
     registered event (off event (Some cb) bus)
     = Set_delete cb (registered event bus) ∧
     (∀ c, c ∈ registered event (off event (Some cb) bus)
           ↔ c ≠ cb ∧ c ∈ registered event bus) ∧
     (∀ event', event' ≠ event →
        listeners (off event (Some cb) bus) !! event'
        = listeners bus !! event')).
Proof.
  assert (registered event (off event None bus) = []) as Hnone.
  { unfold registered. cbn [off listeners]. by rewrite lookup_delete_eq. }
  split; [apply lookup_delete_eq|].
  split; [intros event' Hne; by apply lookup_delete_ne|].
  split; [|split].
  - intros fuel data w. by apply emit_nobody.
  - intros cb' data w Hq.
    assert (registered event (on event cb' (off event None bus)).1 = [cb'])
      as Hreg.
    { rewrite on_registered, Hnone. unfold Set_add.
      by rewrite decide_False by apply not_elem_of_nil. }
    destruct (emits_quiet body event data
                (on event cb' (off event None bus)).1 w)
      as (r & Hr & _ & _ & Hturn).
    { rewrite Hreg. by intros c ->%list_elem_of_singleton. }
    exists r. split; [done|]. rewrite Hreg in Hturn. cbn [in_turn] in Hturn.
    destruct (alone (body cb' event data) w) as [[] w'];
      by injection Hturn as -> _ _.
  - intros cb.
    assert (registered event (off event (Some cb) bus)
            = Set_delete cb (registered event bus)) as Hreg
      by apply unsubscribe_registered.
    split; [done|]. split.
    + intros c. rewrite Hreg. apply elem_of_Set_delete.
    + intros event' Hne. cbn [off listeners]. by rewrite lookup_alter_ne.
Qed.

(** C8. An [emit] for a kind that has no listener, whether the map has no
    entry for it or an emptied set, returns without calling anything and
    leaves the registry, and the listeners' state, as they were. *)
Theorem C8_emit_no_listeners (fuel : nat) (event : kind)
    (data : CanvasEvents Character Shot event) (bus : CanvasEventBus) (w : W) :
  registered event bus = [] →
  ∃ r, emit body fuel event data bus w = Some r ∧
       calls r = [] ∧ outcome r = Normal ∧ after r = bus ∧ world_after r = w.
Proof. intros Hnone. eexists. split; [by apply emit_nobody|done]. Qed.

End Bus.






Lemma C5_cancel_idempotent_witness :
  listeners ((on delete_character 0 create).2 two_listeners) !! edit_shot
  = listeners two_listeners !! edit_shot.
Proof.
  apply (C5_cancel_idempotent delete_character 0 create two_listeners).
  discriminate.
Defined.

Lemma C6_off_witness :
  listeners (off delete_character None two_listeners) !! edit_shot
  = listeners two_listeners !! edit_shot
  ∧ ∃ r, emits all_return delete_character entity7
           (on delete_character 2 (off delete_character None two_listeners)).1
           () r
         ∧ called r = [2].
Proof.
  destruct (C6_off all_return delete_character two_listeners)
    as (_ & Hother & _ & Hnew & _).
  split; [by apply Hother|]. by apply (Hnew 2 entity7 ()).
Defined.

Lemma C8_emit_no_listeners_witness :
  ∃ r, emit first_throws 0 edit_shot entity7 two_listeners () = Some r ∧
       calls r = [] ∧ outcome r = Normal ∧ after r = two_listeners
       ∧ world_after r = ().
Proof.
  apply (C8_emit_no_listeners first_throws 0 edit_shot entity7 two_listeners).
  reflexivity.
Defined.

(** The scenario of the specification: a listener on one kind is called
    once with the payload, and not at all after [off] for that kind. *)
Example register_emit_off_emit :
  let bus := (on delete_character 0 create).1 in
  calls <$> emit all_return 1 delete_character entity7 bus ()
  = Some [invoke delete_character entity7 0] ∧
  calls <$> emit all_return 1 delete_character entity7
              (off delete_character None bus) ()
  = Some [].
Proof. split; reflexivity. Qed.

(** The walk is over the live set. A listener cancelled by an earlier one
    of the same dispatch is not called; one that is taken off and
    registered again is called once more; after [off(kind)] the walk goes
    on over the set it started on, and a listener registered after that
    waits for the next [emit]. *)
Example cancelled_before_its_turn :
  called <$> emit first_cancels_second 8 delete_character entity7
               two_listeners ()
  = Some [0].
Proof. reflexivity. Qed.

Example replaced_set_is_walked_to_its_end :
  (λ r, (called r, registered delete_character (after r)))
    <$> emit first_replaces_set 8 delete_character entity7 two_listeners ()
  = Some ([0; 1], [5]).
Proof. reflexivity. Qed.

(** An [emit] from inside a listener runs to its end before the outer
    walk goes on, and its exception passes through a listener without a
    handler: what an [emit] for one kind does may hang on the listeners
    of another. *)
Example emit_from_a_listener :
  (λ r, (called r, outcome r))
    <$> emit edit_emits_delete 8 edit_shot entity7 two_kinds ()
  = Some ([0; 1], Throw) ∧
  (λ r, (called r, outcome r))
    <$> emit edit_emits_delete 8 edit_shot entity7
          (off delete_shot None two_kinds) ()
  = Some ([0], Normal).
Proof. split; reflexivity. Qed.

(** A listener's state decides how it ends: the same listener throws in
    the first [emit] and returns in the second. *)
Example throws_the_first_time :
  (λ r, (outcome r, world_after r))
    <$> emit throws_once 8 delete_character entity7
          (on delete_character 0 create).1 0
  = Some (Throw, 1) ∧
  (λ r, (outcome r, world_after r))
    <$> emit throws_once 8 delete_character entity7
          (on delete_character 0 create).1 1
  = Some (Normal, 2).
Proof. split; reflexivity. Qed.

(** ** Further properties of the toast store *)

(** X1. The bound of [MAX_TOASTS] holds after any mix of [addToast],
    [removeToast] and [clearToasts] calls on the initial store. *)
Theorem store_never_exceeds_max (acts : list action) :
  length (toasts (run acts init)) ≤ MAX_TOASTS.
Proof. apply run_bound. cbn. unfold MAX_TOASTS. lia. Qed.

Lemma removeToast_toasts id s :
  toasts (removeToast id s)
  = filter (λ t, get t "id" ≠ VString id) (toasts s).
Proof. reflexivity. Qed.

(** X2. Dismissing is safe to repeat and to reorder: a second
    [removeToast] of the same id changes nothing, two removals give the
    same queue in either order, and what a removal leaves is the old
    queue without the toasts of that id, the others in their old order. *)
Theorem removeToast_repeat_reorder (a b : string) (s : ToastStore) :
  removeToast a (removeToast a s) = removeToast a s ∧
  removeToast a (removeToast b s) = removeToast b (removeToast a s) ∧
  toasts (removeToast a s) `sublist_of` toasts s ∧
  (∀ t, t ∈ toasts (removeToast a s)
        ↔ t ∈ toasts s ∧ get t "id" ≠ VString a).
Proof.
  split; [|split; [|split]].
  - unfold removeToast. cbn [toasts]. f_equal.
    rewrite list_filter_filter. apply list_filter_iff. tauto.
  - unfold removeToast. cbn [toasts]. f_equal.
    rewrite !list_filter_filter. apply list_filter_iff. tauto.
  - rewrite removeToast_toasts. apply sublist_filter.
  - intros t. rewrite removeToast_toasts, list_elem_of_filter. tauto.
Qed.

(** X3. Taking back what was just added: when no toast of the queue holds
    the id the call generates, [removeToast] of that id after [addToast]
    leaves the old queue, less its head if the queue was full. *)
Theorem addToast_then_removeToast (e : entropy) (t : object) (s : ToastStore) :
  (∀ t', t' ∈ toasts s → get t' "id" ≠ VString (toast_id e)) →
  toasts (removeToast (toast_id e) (addToast e t s))
  = drop (if decide (MAX_TOASTS ≤ length (toasts s)) then 1 else 0) (toasts s)
  ∧ (length (toasts s) < MAX_TOASTS →
     removeToast (toast_id e) (addToast e t s) = s).
Proof.
  intros Hfresh.
  assert (toasts (removeToast (toast_id e) (addToast e t s))
          = drop (if decide (MAX_TOASTS ≤ length (toasts s)) then 1 else 0)
              (toasts s)) as Hq.
  { rewrite removeToast_toasts, addToast_toasts, filter_app.
    assert (¬ get (stored e t) "id" ≠ VString (toast_id e)) as Hnew.
    { intros Hne. apply Hne. unfold get, stored. by rewrite lookup_insert_eq. }
    rewrite (filter_cons _ (stored e t)), (decide_False _ _ Hnew) by done.
    rewrite filter_nil, app_nil_r.
    set (q := drop _ _).
    assert (∀ t', t' ∈ q → get t' "id" ≠ VString (toast_id e)) as Hq.
    { intros t' Ht'. apply Hfresh.
      eapply elem_of_sublist; [done|apply sublist_drop]. }
    clearbody q. induction q as [|x q IH]; [done|].
    rewrite filter_cons, decide_True by (apply Hq; left).
    f_equal. apply IH. intros t' Ht'. apply Hq. by right. }
  split; [done|]. intros Hlen.
  rewrite decide_False, drop_0 in Hq by lia.
  destruct s as [q]. cbn [toasts] in Hq.
  destruct (removeToast _ _) as [q']. cbn [toasts] in Hq. by subst.
Qed.

Lemma addToast_then_removeToast_witness :
  removeToast (toast_id (tick 2)) (addToast (tick 2) (titled "T2")
                                     (addToast (tick 1) (titled "T1") init))
  = addToast (tick 1) (titled "T1") init.
Proof.
  apply (addToast_then_removeToast (tick 2) (titled "T2")
           (addToast (tick 1) (titled "T1") init)).
  - intros t' Ht'.
    change (toasts (addToast (tick 1) (titled "T1") init))
      with [stored (tick 1) (titled "T1")] in Ht'.
    apply list_elem_of_singleton in Ht' as ->. vm_compute. discriminate.
  - vm_compute. lia.
Defined.

(** X4. A constructor hands on what it is given: every property of the
    options other than [id] is on the stored toast with the caller's
    value, and the stored toast has no property besides [id], [type],
    [duration] and those of the options. *)
Theorem constructor_passes_options
    (sv : severity) (e : entropy) (options : object) (store : ToastStore) :
  ∃ t, last (toasts (construct sv e options store)) = Some t ∧
       (∀ k v, k ≠ "id" → options !! k = Some v → t !! k = Some v) ∧
       dom t = {["id"; "type"; "duration"]} ∪ dom options.
Proof.
  eexists. split; [apply construct_last|]. split.
  - intros k v Hk Hv. unfold stored, spread.
    rewrite lookup_insert_ne by done. by erewrite lookup_union_Some_l.
  - unfold stored, spread.
    rewrite dom_insert_L, dom_union_L, dom_insert_L, dom_singleton_L.
    apply set_eq. intros x. rewrite !elem_of_union, !elem_of_singleton. tauto.
Qed.

Lemma constructor_passes_options_witness :
  ∃ t, last (toasts (construct Warning (tick 1) plain_options init)) = Some t ∧
       t !! "title" = Some (VString "Saved").
Proof.
  destruct (constructor_passes_options Warning (tick 1) plain_options init)
    as (t & Hlast & Hpass & _).
  exists t. split; [done|]. apply Hpass; [discriminate|reflexivity].
Defined.

(** ** Further properties of the event bus *)

Lemma off_registered_ne event event' cb bus :
  event ≠ event' → registered event' (off event cb bus) = registered event' bus.
Proof.
  intros Hne. unfold registered. destruct cb as [c|]; cbn [off listeners].
  - by rewrite lookup_alter_ne.
  - by rewrite lookup_delete_ne.
Qed.

Lemma call_registered_ne m event' bus :
  (∀ event, target m = Some event → event ≠ event') → target m ≠ None →
  registered event' (call m bus) = registered event' bus.
Proof.
  intros Hne Hsome. destruct m as [event cb|event cb|event cb|]; cbn [call].
  - unfold registered. rewrite on_registered_ne; [done|]. by apply Hne.
  - apply (off_registered_ne event event' (Some cb)). by apply Hne.
  - apply off_registered_ne. by apply Hne.
  - done.
Qed.

(** X5. Unregistering what is not there changes nothing: [off] and the
    cancel function for a function that is not in the set of the kind, and
    [off(kind)] for a kind without an entry, give the bus back as it was. *)
Theorem off_missing_is_noop (event : kind) (cb : callback)
    (bus : CanvasEventBus) :
  (cb ∉ registered event bus →
   off event (Some cb) bus = bus ∧
   ∀ earlier, (on event cb earlier).2 bus = bus) ∧
  (listeners bus !! event = None → off event None bus = bus).
Proof.
  split.
  - intros Hcb.
    assert (unsubscribe event cb bus = bus) as Hun.
    { apply bus_eq. unfold unsubscribe. cbn [listeners]. apply map_eq.
      intros k. destruct (decide (event = k)) as [<-|Hk].
      - rewrite lookup_alter_eq. unfold registered in Hcb.
        destruct (listeners bus !! event) as [s|]; [|done].
        cbn in *. by rewrite Set_delete_absent.
      - by rewrite lookup_alter_ne. }
    split; [assumption|]. by intros earlier.
  - intros Hnone. apply bus_eq. cbn [off listeners]. by apply delete_id.
Qed.

Lemma off_missing_is_noop_witness :
  off delete_character (Some 5) two_listeners = two_listeners ∧
  off edit_shot None two_listeners = two_listeners.
Proof.
  split.
  - apply (proj1 (off_missing_is_noop delete_character 5 two_listeners)).
    change (5 ∉ [0; 1]). rewrite !elem_of_cons, elem_of_nil. lia.
  - apply (proj2 (off_missing_is_noop edit_shot 0 two_listeners)).
    reflexivity.
Defined.

(** X6. A newcomer goes to the end of the set of its kind, and so does a
    function that is registered again after its cancellation, whatever
    place it had before. *)
Theorem on_registers_last (event : kind) (cb : callback)
    (bus : CanvasEventBus) :
  (cb ∉ registered event bus →
   registered event (on event cb bus).1 = registered event bus ++ [cb]) ∧
  registered event (on event cb ((on event cb bus).2 bus)).1
  = Set_delete cb (registered event bus) ++ [cb].
Proof.
  split.
  - intros Hcb. rewrite on_registered. unfold Set_add.
    by rewrite decide_False.
  - cbn [on snd]. rewrite on_registered, unsubscribe_registered.
    unfold Set_add. rewrite decide_False; [done|].
    rewrite elem_of_Set_delete. tauto.
Qed.

Lemma on_registers_last_witness :
  registered delete_character (on delete_character 2 two_listeners).1
  = [0; 1; 2].
Proof.
  apply (proj1 (on_registers_last delete_character 2 two_listeners)).
  change (2 ∉ [0; 1]). rewrite !elem_of_cons, elem_of_nil. lia.
Defined.

(** X7. Registrations for two different kinds can be made in either
    order: the registry is the same. *)
Theorem on_commutes_across_kinds (event1 event2 : kind) (cb1 cb2 : callback)
    (bus : CanvasEventBus) :
  event1 ≠ event2 →
  (on event1 cb1 (on event2 cb2 bus).1).1
  = (on event2 cb2 (on event1 cb1 bus).1).1.
Proof.
  intros Hne. apply bus_eq. rewrite !on_listeners.
  unfold registered at 1 3. rewrite !on_listeners.
  rewrite !lookup_insert_ne by done.
  fold (registered event1 bus) (registered event2 bus).
  by apply insert_insert_ne.
Qed.

Lemma on_commutes_across_kinds_witness :
  (on edit_shot 3 (on delete_shot 4 two_listeners).1).1
  = (on delete_shot 4 (on edit_shot 3 two_listeners).1).1.
Proof.
  apply (on_commutes_across_kinds edit_shot delete_shot 3 4 two_listeners).
  discriminate.
Defined.

(** X8. [clear()] does at once what [off(kind)] does kind by kind: the
    registry it leaves is the one left by [off] for every kind, the
    registry of a new bus. *)
Theorem clear_is_off_for_every_kind (bus : CanvasEventBus) :
  clear bus = foldr (λ event b, off event None b) bus all_kinds ∧
  clear bus = create ∧
  ∀ event, registered event (clear bus) = [].
Proof.
  split; [|split; [done|]].
  - apply bus_eq. cbn [clear listeners]. apply map_eq. intros k.
    rewrite lookup_empty. unfold all_kinds. cbn [foldr off listeners].
    destruct k;
      repeat (rewrite lookup_delete_eq || rewrite lookup_delete_ne by done);
      done.
  - intros event. unfold registered. cbn [clear listeners].
    by rewrite lookup_empty.
Qed.

Section BusFurther.

Context {Character Shot W : Type}.
Variable body
  : callback → ∀ k, CanvasEvents Character Shot k → code Character Shot W.

(** X9. On a bus that has only been used through its methods, an [emit]
    whose listeners leave the bus alone calls no function twice, whatever
    was registered, cancelled, removed or cleared before and whichever of
    the listeners throw. *)
Theorem emit_never_calls_twice (ms : list method) (event : kind)
    (data : CanvasEvents Character Shot event) (w : W) :
  (∀ c, c ∈ registered event (replay ms create) → quiet (body c event data)) →
  ∃ r, emits body event data (replay ms create) w r ∧
       NoDup (called r) ∧ ∀ cb, times cb (called r) ≤ 1.
Proof.
  intros Hq.
  destruct (emits_quiet body event data (replay ms create) w Hq)
    as (r & Hr & _ & _ & Hturn).
  exists r. split; [done|].
  assert (NoDup (called r)) as Hnd.
  { pose proof (wf_registered event _ (wf_replay ms create wf_create)) as Hl.
    destruct (in_turn_prefix body event data
                (registered event (replay ms create)) w) as [rest Hrest].
    rewrite <-Hturn in Hrest. cbn [fst] in Hrest. rewrite Hrest in Hl.
    by apply NoDup_app in Hl as [? _]. }
  split; [done|]. intros cb. by apply times_NoDup.
Qed.

(** X10. A method that works on one kind leaves alone the dispatch of
    another kind whose listeners do not call the bus: an [emit] for that
    kind makes the same calls, ends the same way and leaves the same
    state of the listeners before and after the method. *)
Theorem emit_unaffected_by_other_kind (m : method) (event event' : kind)
    (data : CanvasEvents Character Shot event') (bus : CanvasEventBus)
    (w : W) :
  target m = Some event → event ≠ event' →
  (∀ c, c ∈ registered event' bus → quiet (body c event' data)) →
  ∃ r r', emits body event' data (call m bus) w r ∧
          emits body event' data bus w r' ∧
          after r = call m bus ∧ after r' = bus ∧
          calls r = calls r' ∧ outcome r = outcome r' ∧
          world_after r = world_after r'.
Proof.
  intros Htarget Hne Hq.
  assert (registered event' (call m bus) = registered event' bus) as Hreg.
  { apply call_registered_ne; [|congruence]. intros k Hk. congruence. }
  destruct (emits_quiet body event' data bus w Hq)
    as (r' & Hr' & Hafter' & Hcalls' & Hturn').
  destruct (emits_quiet body event' data (call m bus) w)
    as (r & Hr & Hafter & Hcalls & Hturn); [by rewrite Hreg|].
  rewrite Hreg, <-Hturn' in Hturn. injection Hturn as Hc Ho Hw.
  exists r, r'. repeat split; try done. by rewrite Hcalls, Hcalls', Hc.
Qed.

(** After [clear()] an [emit] of any kind calls nothing and returns. *)
Lemma emit_after_clear fuel (event : kind)
    (data : CanvasEvents Character Shot event) (bus : CanvasEventBus) (w : W) :
  emit body fuel event data (clear bus) w
  = Some {| after := clear bus; calls := []; outcome := Normal;
            world_after := w |}.
Proof. by apply emit_nobody. Qed.

End BusFurther.

Lemma emit_never_calls_twice_witness :
  ∃ r, emits first_throws delete_character entity7
         (replay [On delete_character 1; On delete_character 0;
                  Cancel delete_character 1; On delete_character 1] create)
         () r
       ∧ NoDup (called r).
Proof.
  destruct (emit_never_calls_twice first_throws
              [On delete_character 1; On delete_character 0;
               Cancel delete_character 1; On delete_character 1]
              delete_character entity7 ()) as (r & Hr & Hnd & _).
  - intros c _. unfold first_throws. by case_decide.
  - by exists r.
Defined.

Lemma emit_unaffected_by_other_kind_witness :
  ∃ r r', emits all_return edit_shot entity7
            (call (Off delete_shot None) two_kinds) () r
          ∧ emits all_return edit_shot entity7 two_kinds () r'
          ∧ registered delete_shot (after r) = []
          ∧ registered delete_shot (after r') = [1]
          ∧ calls r = calls r'.
Proof.
  destruct (emit_unaffected_by_other_kind all_return (Off delete_shot None)
              delete_shot edit_shot entity7 two_kinds ())
    as (r & r' & Hr & Hr' & Ha & Ha' & Hcalls & _); [done|done| |].
  - by intros c _.
  - exists r, r'. by rewrite Ha, Ha'.
Defined.

(** ** Listeners that change the set under the walk *)







Section LiveSet.

Context {Character Shot W : Type}.
Variable body
  : callback → ∀ k, CanvasEvents Character Shot k → code Character Shot W.





End LiveSet.





(** ** [groupConfigs] *)

Section ConfigGroups.

Import JSString Types configGroups.

(** Two prefixes of one text are prefixes of each other, one way or the
    other. *)
Lemma startsWith_comparable s p q :
  startsWith s p = true → startsWith s q = true →
  startsWith p q = true ∨ startsWith q p = true.
Proof.
  unfold startsWith. revert p q.
  induction s as [|a s IH]; intros [|b p] [|c q]; cbn; auto; try done.
  destruct (ascii_dec b a) as [->|]; [|discriminate].
  destruct (ascii_dec c a) as [->|]; [|discriminate].
  destruct (ascii_dec a a) as [_|]; [|done]. apply IH.
Qed.

Lemma startsWith_exclusive s p q :
  startsWith p q = false → startsWith q p = false →
  startsWith s p = true → startsWith s q = false.
Proof.
  intros Hpq Hqp Hp. destruct (startsWith s q) eqn:Hq; [|done].
  destruct (startsWith_comparable s p q Hp Hq); congruence.
Qed.

Ltac other_prefix :=
  match goal with
  | H : startsWith ?k ?p = true |- startsWith ?k ?q = false =>
      by apply (startsWith_exclusive k p q)
  | H : bool_decide (?k = _) = true |- _ =>
      apply bool_decide_eq_true in H; subst k; reflexivity
  | H : startsWith ?k ?p = true |- bool_decide (?k = ?l) = false =>
      apply bool_decide_eq_false; intros ->; discriminate H
  | H : bool_decide (?k = _) = true |- bool_decide (?k = _) = false =>
      apply bool_decide_eq_true in H; subst k; reflexivity
  end.

Lemma database_excludes k :
  is_database k = true →
  is_llm k = false ∧ is_image k = false ∧ is_video k = false.
Proof.
  unfold is_database, is_llm, is_image, is_video.
  rewrite !orb_true_iff, !orb_false_iff.
  repeat split; intros; destruct_or?; other_prefix.
Qed.

Lemma llm_excludes k :
  is_llm k = true → is_image k = false ∧ is_video k = false.
Proof.
  unfold is_llm, is_image, is_video. rewrite !orb_false_iff.
  repeat split; intros; other_prefix.
Qed.

Lemma image_excludes k : is_image k = true → is_video k = false.
Proof.
  unfold is_image, is_video. rewrite !orb_true_iff, !orb_false_iff.
  repeat split; intros; destruct_or?; other_prefix.
Qed.

(** X11. No key passes two of the four tests of [groupConfigs]: the
    prefixes and the two exact names exclude one another, so a
    configuration goes to the same group whatever the order of the
    [else if] chain. *)
Theorem group_tests_exclusive (k : string) :
  (is_database k = true →
   is_llm k = false ∧ is_image k = false ∧ is_video k = false) ∧
  (is_llm k = true → is_image k = false ∧ is_video k = false) ∧
  (is_image k = true → is_video k = false).
Proof.
  split; [apply database_excludes|].
  split; [apply llm_excludes|apply image_excludes].
Qed.

Lemma group_tests_exclusive_witness :
  is_llm "db_path" = false ∧ is_image "db_path" = false
  ∧ is_video "db_path" = false.
Proof.
  apply (proj1 (group_tests_exclusive "db_path")). reflexivity.
Defined.

Lemma visit_spec groups config :
  let k := toLowerCase (key config) in
  visit groups config
  = {| database := database groups ++ (if is_database k then [config] else []);
       llm := llm groups ++ (if is_llm k then [config] else []);
       image := image groups ++ (if is_image k then [config] else []);
       video := video groups ++ (if is_video k then [config] else []) |}.
Proof.
  intros k. pose proof (database_excludes k) as Hd.
  pose proof (llm_excludes k) as Hl. pose proof (image_excludes k) as Hi.
  unfold visit, push. fold k.
  change (startsWith k "database_" || startsWith k "redis_"
          || startsWith k "db_") with (is_database k).
  change (startsWith k "anthropic_") with (is_llm k).
  change (startsWith k "image_" || bool_decide (k = "enable_image_to_image"))
    with (is_image k).
  change (startsWith k "video_" || startsWith k "doubao_"
          || bool_decide (k = "enable_image_to_video")) with (is_video k).
  destruct groups as [d l i v]. cbn [database llm image video].
  destruct (is_database k).
  { destruct Hd as (-> & -> & ->); [done|]. by rewrite !app_nil_r. }
  destruct (is_llm k).
  { destruct Hl as (-> & ->); [done|]. by rewrite !app_nil_r. }
  destruct (is_image k).
  { rewrite Hi by done. by rewrite !app_nil_r. }
  destruct (is_video k); by rewrite !app_nil_r.
Qed.

Lemma selected_cons test config configs :
  selected test (config :: configs)
  = (if test (toLowerCase (key config)) then [config] else [])
    ++ selected test configs.
Proof.
  unfold selected. rewrite filter_cons.
  destruct (test (toLowerCase (key config))); by case_decide.
Qed.

Lemma foldl_visit groups configs :
  foldl visit groups configs
  = {| database := database groups ++ selected is_database configs;
       llm := llm groups ++ selected is_llm configs;
       image := image groups ++ selected is_image configs;
       video := video groups ++ selected is_video configs |}.
Proof.
  revert groups. induction configs as [|c configs IH]; intros groups.
  - destruct groups. cbn. by rewrite !app_nil_r.
  - cbn [foldl]. rewrite IH, visit_spec. cbn [database llm image video].
    by rewrite !selected_cons, !app_assoc.
Qed.

Lemma groupConfigs_selected (configs : list ConfigItem) :
  groupConfigs configs
  = filter (λ section, items section ≠ [])
      [ {| section_key := "database"; title := "数据库配置";
           items := selected is_database configs |};
        {| section_key := "llm"; title := "LLM 服务";
           items := selected is_llm configs |};
        {| section_key := "image"; title := "图像生成服务";
           items := selected is_image configs |};
        {| section_key := "video"; title := "视频服务";
           items := selected is_video configs |} ].
Proof.
  unfold groupConfigs. rewrite foldl_visit. cbn [database llm image video app].
  apply list_filter_iff. intros section.
  destruct (items section); cbn [length]; split; intros H; try done; lia.
Qed.

Lemma elem_of_selected test c configs :
  c ∈ selected test configs ↔ test (toLowerCase (key c)) = true ∧ c ∈ configs.
Proof. unfold selected. by rewrite list_elem_of_filter. Qed.

(** X12. Each section of the result holds the configurations that pass the
    test of its group, all of them and in input order, under the fixed key
    and title of the group; the sections come in the order database, llm,
    image, video, and a group that nothing passes has no section. So
    every item of a section is a configuration of the input that passes a
    test. *)
Theorem groupConfigs_sections (configs : list ConfigItem) :
  groupConfigs configs
  = filter (λ section, items section ≠ [])
      [ {| section_key := "database"; title := "数据库配置";
           items := selected is_database configs |};
        {| section_key := "llm"; title := "LLM 服务";
           items := selected is_llm configs |};
        {| section_key := "image"; title := "图像生成服务";
           items := selected is_image configs |};
        {| section_key := "video"; title := "视频服务";
           items := selected is_video configs |} ] ∧
  ∀ section c, section ∈ groupConfigs configs → c ∈ items section →
               c ∈ configs ∧ grouped c = true.
Proof.
  split; [apply groupConfigs_selected|].
  intros section c. rewrite groupConfigs_selected, list_elem_of_filter.
  rewrite !elem_of_cons, elem_of_nil. unfold grouped. cbn zeta.
  intros [_ [->|[->|[->|[->|[]]]]]]; cbn [items];
    intros [Htest Hc]%elem_of_selected; (split; [done|]);
    rewrite Htest; by rewrite ?orb_true_r.
Qed.

Lemma groupConfigs_sections_witness :
  database_url_item ∈ [database_url_item; app_name_item]
  ∧ grouped database_url_item = true.
Proof.
  apply (proj2 (groupConfigs_sections [database_url_item; app_name_item])
           {| section_key := "database"; title := "数据库配置";
              items := [database_url_item] |} database_url_item).
  - vm_compute. left.
  - left.
Defined.

Lemma concat_items_nonempty (sections : list ConfigSection) :
  concat (items <$> filter (λ section, items section ≠ []) sections)
  = concat (items <$> sections).
Proof.
  induction sections as [|x sections IH]; [done|].
  rewrite filter_cons. case_decide as Hx; cbn; [by rewrite IH|].
  rewrite IH. by rewrite Hx.
Qed.

Lemma selected_all_permutation (configs : list ConfigItem) :
  selected is_database configs ++ selected is_llm configs
  ++ selected is_image configs ++ selected is_video configs
  ≡ₚ filter (λ c, grouped c = true) configs.
Proof.
  induction configs as [|c configs IH]; [done|].
  rewrite !selected_cons, filter_cons.
  set (k := toLowerCase (key c)).
  assert (grouped c = is_database k || is_llm k || is_image k || is_video k)
    as Hg by done.
  pose proof (database_excludes k) as Hd.
  pose proof (llm_excludes k) as Hl. pose proof (image_excludes k) as Hi.
  destruct (is_database k).
  { destruct Hd as (-> & -> & ->); [done|].
    rewrite decide_True by done. cbn. by rewrite IH. }
  destruct (is_llm k).
  { destruct Hl as (-> & ->); [done|].
    rewrite decide_True by done. cbn.
    rewrite <-IH. by rewrite <-Permutation_middle. }
  destruct (is_image k).
  { rewrite Hi by done. rewrite decide_True by done. cbn. rewrite <-IH.
    rewrite (app_assoc (selected is_database configs)).
    by rewrite <-Permutation_middle, <-app_assoc. }
  destruct (is_video k); cbn.
  - rewrite decide_True by done. rewrite <-IH.
    rewrite (app_assoc (selected is_llm configs)),
      (app_assoc (selected is_database configs)).
    by rewrite <-Permutation_middle, <-!app_assoc.
  - by rewrite decide_False by (rewrite Hg; done).
Qed.

(** X13. The sections together hold, up to order, the configurations
    that pass one of the tests, each as often as the input has it: nothing
    is invented or doubled, and what passes no test is left out. *)
Theorem groupConfigs_items (configs : list ConfigItem) :
  concat (items <$> groupConfigs configs)
  ≡ₚ filter (λ c, grouped c = true) configs
  ∧ length (concat (items <$> groupConfigs configs)) ≤ length configs.
Proof.
  assert (concat (items <$> groupConfigs configs)
          ≡ₚ filter (λ c, grouped c = true) configs) as Hperm.
  { rewrite groupConfigs_selected, concat_items_nonempty. cbn.
    rewrite app_nil_r. apply selected_all_permutation. }
  split; [done|]. rewrite Hperm. apply length_filter.
Qed.

Lemma selected_nil test configs :
  selected test configs = []
  ↔ ∀ c, c ∈ configs → test (toLowerCase (key c)) = false.
Proof.
  unfold selected. induction configs as [|c configs IH].
  - split; [|done]. intros _ c Hc. by apply elem_of_nil in Hc.
  - rewrite filter_cons. setoid_rewrite elem_of_cons.
    destruct (test (toLowerCase (key c))) eqn:Hc.
    + rewrite decide_True by done. split; [done|].
      intros Hall. specialize (Hall c (or_introl eq_refl)). congruence.
    + rewrite decide_False by done. rewrite IH. split.
      * intros Hall c' [->|Hc']; auto.
      * intros Hall c' Hc'. apply Hall. by right.
Qed.

Lemma four_sections_nil (s1 s2 s3 s4 : ConfigSection) :
  filter (λ section, items section ≠ []) [s1; s2; s3; s4] = []
  ↔ items s1 = [] ∧ items s2 = [] ∧ items s3 = [] ∧ items s4 = [].
Proof.
  rewrite !filter_cons, filter_nil.
  repeat case_decide; split; try done; intros (? & ? & ? & ?); done.
Qed.

(** X14. The result is empty exactly when no configuration passes a test;
    so it is for an empty input. Every section that is returned has at
    least one item, and the keys of the returned sections are a
    subsequence of database, llm, image, video. *)
Theorem groupConfigs_shape (configs : list ConfigItem) :
  (groupConfigs configs = []
   ↔ ∀ c, c ∈ configs → grouped c = false) ∧
  (∀ section, section ∈ groupConfigs configs → items section ≠ []) ∧
  section_key <$> groupConfigs configs
  `sublist_of` ["database"; "llm"; "image"; "video"].
Proof.
  rewrite groupConfigs_selected. split; [|split].
  - assert (∀ c, grouped c = false
                 ↔ is_database (toLowerCase (key c)) = false
                   ∧ is_llm (toLowerCase (key c)) = false
                   ∧ is_image (toLowerCase (key c)) = false
                   ∧ is_video (toLowerCase (key c)) = false) as Hgrouped.
    { intros c. unfold grouped. cbn zeta. rewrite !orb_false_iff. tauto. }
    setoid_rewrite Hgrouped.
    rewrite four_sections_nil. cbn [items]. rewrite !selected_nil. split.
    + intros (Hd & Hl & Hi & Hv) c Hc. auto.
    + intros Hall. repeat split; intros c Hc; by apply Hall.
  - intros section Hin. by apply list_elem_of_filter in Hin as [? _].
  - etrans; [apply fmap_sublist, sublist_filter|]. done.
Qed.

Lemma lower_idempotent c : lower (lower c) = lower c.
Proof. destruct c as [[] [] [] [] [] [] [] []]; reflexivity. Qed.

Lemma toLowerCase_idempotent s : toLowerCase (toLowerCase s) = toLowerCase s.
Proof.
  induction s as [|c s IH]; [done|]. cbn. by rewrite lower_idempotent, IH.
Qed.

Lemma selected_lowered test configs :
  selected test (lowered <$> configs) = lowered <$> selected test configs.
Proof.
  induction configs as [|c configs IH]; [done|].
  rewrite fmap_cons, !selected_cons, fmap_app, IH.
  cbn [lowered key]. rewrite toLowerCase_idempotent.
  by destruct (test (toLowerCase (key c))).
Qed.

(** X15. The grouping does not look at the case of the keys: spelling
    every key in lower case before grouping gives the same sections, with
    the same items in the same places, as grouping first. *)
Theorem groupConfigs_ignores_case (configs : list ConfigItem) :
  groupConfigs (lowered <$> configs)
  = lowered_section <$> groupConfigs configs.
Proof.
  rewrite !groupConfigs_selected, !selected_lowered.
  destruct (selected is_database configs), (selected is_llm configs),
    (selected is_image configs), (selected is_video configs); reflexivity.
Qed.

(** The configurations of the test file: two database settings, one for
    the LLM service, one for the image service, none for video. *)
Example groupConfigs_mockConfigData :
  (λ section, (section_key section, key <$> items section))
    <$> groupConfigs mockConfigData
  = [("database", ["DATABASE_URL"; "REDIS_URL"]);
     ("llm", ["ANTHROPIC_API_KEY"]);
     ("image", ["IMAGE_API_KEY"])].
Proof. vm_compute. reflexivity. Qed.

Lemma groupConfigs_shape_witness : groupConfigs [app_name_item] = [].
Proof.
  apply (proj1 (groupConfigs_shape [app_name_item])).
  intros c Hc. apply list_elem_of_singleton in Hc as ->. reflexivity.
Defined.

End ConfigGroups.

(** ** [getStaticUrl] *)

Section StaticUrl.

Import JSString staticUrl.

Lemma getStaticUrl_absolute p :
  p ≠ "" → (startsWith p "http://" || startsWith p "https://") = true →
  getStaticUrl (Some p) = Some p.
Proof.
  intros Hp Habs. unfold getStaticUrl.
  by rewrite bool_decide_eq_false_2, Habs.
Qed.

Lemma getStaticUrl_Some path u :
  getStaticUrl path = Some u →
  u ≠ "" ∧
  (startsWith u "http://" || startsWith u "https://") = true ∧
  ∃ p, path = Some p ∧
       u = if startsWith p "http://" || startsWith p "https://"
           then p else "http://localhost:18765" +:+ p.
Proof.
  destruct path as [p|]; cbn [getStaticUrl]; [|done].
  case_bool_decide as Hp; [done|].
  destruct (startsWith p "http://" || startsWith p "https://") eqn:Habs;
    intros [= <-]; (repeat split; [done..|]); exists p; by rewrite Habs.
Qed.

(** X16. [getStaticUrl] gives no address exactly for a missing or empty
    path; any address it gives is the path itself or the path behind
    [http://localhost:18765], is not empty and starts with [http://] or
    [https://]. *)
Theorem getStaticUrl_result (path : option string) :
  (getStaticUrl path = None ↔ path = None ∨ path = Some "") ∧
  (∀ u, getStaticUrl path = Some u →
        u ≠ "" ∧
        (startsWith u "http://" || startsWith u "https://") = true ∧
        ∃ p, path = Some p ∧
             u = if startsWith p "http://" || startsWith p "https://"
                 then p else "http://localhost:18765" +:+ p).
Proof.
  split; [|apply getStaticUrl_Some].
  destruct path as [p|]; cbn [getStaticUrl]; [|tauto].
  case_bool_decide as Hp; [subst p; tauto|].
  destruct (startsWith p "http://" || startsWith p "https://");
    (split; [done|]); by intros [|[= ->]].
Qed.

Lemma getStaticUrl_result_witness :
  startsWith "http://localhost:18765/static/a.png" "http://"
  || startsWith "http://localhost:18765/static/a.png" "https://" = true.
Proof.
  apply (proj2 (getStaticUrl_result (Some "/static/a.png"))
           "http://localhost:18765/static/a.png").
  reflexivity.
Defined.

(** X17. Resolving twice is resolving once: an address [getStaticUrl]
    returned is returned unchanged when it is passed in again. *)
Theorem getStaticUrl_idempotent (path : option string) :
  getStaticUrl (getStaticUrl path) = getStaticUrl path.
Proof.
  destruct (getStaticUrl path) as [u|] eqn:Hu; [|done].
  destruct (getStaticUrl_Some path u Hu) as (Hne & Habs & _).
  by apply getStaticUrl_absolute.
Qed.

End StaticUrl.

(** ** The settings store *)

Section SettingsStore.

Import settingsStore.

(** X18. Whatever the history of [openModal] and [closeModal] calls, the
    modal is open exactly when the last call was [openModal]; with no
    call at all the state is the one it had. *)
Theorem modal_follows_last_request (rs : list request) (st : SettingsState) :
  isModalOpen (serve_all rs st)
  = match last rs with
    | Some OpenModal => true
    | Some CloseModal => false
    | None => isModalOpen st
    end.
Proof.
  destruct rs as [|r rs _] using rev_ind; [done|].
  unfold serve_all. rewrite foldl_app, last_snoc. by destruct r.
Qed.

End SettingsStore.

(** ** The reveal button of [ConfigInput] *)

Section ConfigInputFacts.

Import Types ConfigInput.

Lemma or_empty_Some v : or_empty (Some v) = v.
Proof. unfold or_empty. by case_bool_decide. Qed.

Lemma clicks_snoc apis api st :
  clicks (apis ++ [api]) st = (handleToggleReveal api (clicks apis st)).1.
Proof. unfold clicks. by rewrite foldl_app. Qed.

(** After any number of completed clicks the component is either hidden
    with nothing kept, or revealed with a value the API returned. *)
Lemma clicks_invariant (apis : list settled) :
  let st := clicks apis mount in
  isRevealing st = false ∧
  ((isRevealed st = false ∧ revealedValue st = None) ∨
   (isRevealed st = true ∧
    ∃ v, revealedValue st = Some v ∧ Resolved v ∈ apis)).
Proof.
  induction apis as [|api apis IH] using rev_ind; [by split; [|left]|].
  cbn zeta in *. rewrite clicks_snoc.
  destruct IH as [Hidle [[Hr Hv]|(Hr & v & Hv & Hin)]];
    unfold handleToggleReveal; rewrite Hr.
  - destruct api as [v|]; cbn.
    + split; [done|]. right. split; [done|]. exists v. split; [done|].
      apply elem_of_app. right. by left.
    + split; [done|]. left. by rewrite Hv.
  - cbn. split; [done|]. by left.
Qed.

(** X19. What a sensitive item shows after any number of completed clicks
    on the eye button, whether the requests succeeded or failed: either
    the value as it was handed in when the item is masked and dots when it
    is not, or a value that a successful request returned; and no request
    is left marked as pending. *)
Theorem sensitive_display_after_clicks
    (item : ConfigItem) (value : string) (apis : list settled) :
  is_sensitive item = true →
  let st := clicks apis mount in
  isRevealing st = false ∧
  (isRevealed st = false →
   displayed item value st = if is_masked item then value else "••••••••") ∧
  (isRevealed st = true →
   ∃ v, Resolved v ∈ apis ∧ displayed item value st = v).
Proof.
  intros Hs st. destruct (clicks_invariant apis) as [Hidle Hcases].
  fold st in Hidle, Hcases. split; [done|]. unfold displayed. rewrite Hs.
  split; intros Hr; rewrite Hr.
  - done.
  - destruct Hcases as [[Hr' _]|(_ & v & Hv & Hin)]; [congruence|].
    exists v. split; [done|]. by rewrite Hv, or_empty_Some.
Qed.

Lemma sensitive_display_after_clicks_witness :
  displayed api_key_item "sk-a******key"
    (clicks [Rejected; Resolved "sk-actual-key-123456"; Rejected] mount)
  = "sk-a******key".
Proof.
  apply (sensitive_display_after_clicks api_key_item "sk-a******key"
           [Rejected; Resolved "sk-actual-key-123456"; Rejected]);
    reflexivity.
Defined.

(** X20. Reveal, then hide: from a hidden state a successful request
    shows the returned value, and the next click, which asks the API
    nothing, brings back the mounted state and the display there was
    before, without a notice. *)
Theorem reveal_then_hide (item : ConfigItem) (value v : string)
    (api : settled) (st : State) :
  is_sensitive item = true → isRevealed st = false →
  let shown := handleToggleReveal (Resolved v) st in
  let hidden := handleToggleReveal api shown.1 in
  displayed item value shown.1 = v ∧ shown.2 = [] ∧
  hidden.1 = mount ∧ hidden.2 = [] ∧
  displayed item value hidden.1 = displayed item value st.
Proof.
  intros Hs Hr. unfold handleToggleReveal. rewrite Hr.
  cbn [fst snd isRevealed revealedValue isRevealing].
  unfold displayed. rewrite Hs, Hr. cbn [isRevealed revealedValue].
  by rewrite or_empty_Some.
Qed.

Lemma reveal_then_hide_witness :
  displayed api_key_item "sk-a******key"
    (handleToggleReveal (Resolved "sk-actual-key-123456") mount).1
  = "sk-actual-key-123456".
Proof.
  apply (reveal_then_hide api_key_item "sk-a******key"
           "sk-actual-key-123456" Rejected mount); reflexivity.
Defined.

(** X21. A request that fails changes nothing that is shown: from a
    hidden, idle state the handler ends in the same state, the display is
    the one before, and the user gets the error on the console and the
    alert. *)
Theorem failed_reveal_keeps_display (item : ConfigItem) (value : string)
    (st : State) :
  isRevealed st = false → isRevealing st = false →
  (handleToggleReveal Rejected st).1 = st ∧
  displayed item value (handleToggleReveal Rejected st).1
  = displayed item value st ∧
  (handleToggleReveal Rejected st).2
  = [ConsoleError "Failed to reveal value:";
     Alert "获取真实值失败，请检查网络连接"].
Proof.
  intros Hr Hidle. unfold handleToggleReveal. rewrite Hr. cbn [fst snd].
  assert ({| isRevealed := false; revealedValue := revealedValue st;
             isRevealing := false |} = st) as ->
    by (destruct st; cbn in *; congruence).
  done.
Qed.

Lemma failed_reveal_keeps_display_witness :
  (handleToggleReveal Rejected mount).1 = mount.
Proof.
  apply (failed_reveal_keeps_display api_key_item "sk-a******key" mount);
    reflexivity.
Defined.

End ConfigInputFacts.
